(** * A doubly-linked list with a sentinel ring (package [list])

    Shallow embedding of [src/list/list.go] and proofs of its specified
    properties.  Go pointers are modelled by an explicit heap: an arena of
    [List] values and an arena of [Element] values, both addressed by index.
    A pointer of type [*Element[T]] is [Nil], the address [Root l] of the
    sentinel embedded in list [l] ([&l.root]), or the address [Elem a] of an
    element allocated by [insertValueAfter].  Every function of the package
    is a computation in a state-and-failure monad over that heap; a nil
    dereference is the outcome [Panic]. *)

From Stdlib Require Import ZArith Lia.
From stdpp Require Import prelude.

Local Open Scope Z_scope.

Set Warnings "-clear-no-such-hyp".

(** ** Pointers *)

Inductive ptr : Type :=
  | Nil
  | Root (l : nat)
  | Elem (a : nat).

#[global] Instance ptr_eq_dec : EqDecision ptr.
Proof. solve_decision. Defined.

(** Go's [int] on a 64-bit target: two's complement wrap-around. *)
Definition int_wrap (z : Z) : Z := (z + 2 ^ 63) mod 2 ^ 64 - 2 ^ 63.

Section ListOf.

Context {T : Type}.

(** The zero value of [T], stored in every sentinel. *)
Variable zero : T.

(** ** Data model *)

(** [type Element[T any] struct { prev, next *Element[T]; list *List[T]; Value T }].
    The field [list] is spelled [list_] here. *)
Record Element : Type := mkElement {
  prev : ptr;
  next : ptr;
  list_ : option nat;
  Value : T
}.

(** [type List[T any] struct { root Element[T]; size int }] *)
Record List : Type := mkList {
  root : Element;
  size : Z
}.

Record heap : Type := mkHeap {
  lists : list List;
  elems : list Element
}.

Definition empty_heap : heap := mkHeap [] [].

Definition zero_Element : Element := mkElement Nil Nil None zero.
Definition zero_List : List := mkList zero_Element 0.

(** ** The monad of heap computations *)

Inductive outcome (A : Type) : Type :=
  | Ok (a : A) (h : heap)
  | Panic      (* nil pointer dereference *)
  | Invalid.   (* address outside the arena; no Go pointer is such *)

Arguments Ok {A} a h.
Arguments Panic {A}.
Arguments Invalid {A}.

Definition M (A : Type) : Type := heap → outcome A.

Definition ret {A} (a : A) : M A := λ h, Ok a h.

Definition bind {A B} (c : M A) (k : A → M B) : M B :=
  λ h, match c h with
       | Ok a h' => k a h'
       | Panic => Panic
       | Invalid => Invalid
       end.

Notation "'let!' x ':=' c 'in' k" := (bind c (λ x, k))
  (at level 10, x name, c at level 100, k at level 200).
Notation "c >> k" := (bind c (λ _, k))
  (at level 65, right associativity).

(** *** Memory access *)

Definition look (h : heap) (p : ptr) : option Element :=
  match p with
  | Nil => None
  | Root l => root <$> lists h !! l
  | Elem a => elems h !! a
  end.

Definition fault {A} (p : ptr) : outcome A :=
  match p with Nil => Panic | _ => Invalid end.

Definition upd (p : ptr) (f : Element → Element) (h : heap) : heap :=
  match p with
  | Nil => h
  | Root l => mkHeap (alter (λ L, mkList (f (root L)) (size L)) l (lists h)) (elems h)
  | Elem a => mkHeap (lists h) (alter f a (elems h))
  end.

Definition upd_size (l : nat) (f : Z → Z) (h : heap) : heap :=
  mkHeap (alter (λ L, mkList (root L) (f (size L))) l (lists h)) (elems h).

(** Reading [*p]. *)
Definition load (p : ptr) : M Element :=
  λ h, match look h p with Some e => Ok e h | None => fault p end.

(** Writing one field of [*p]. *)
Definition modify (p : ptr) (f : Element → Element) : M unit :=
  λ h, match look h p with Some _ => Ok tt (upd p f h) | None => fault p end.

Definition set_prev (q : ptr) (e : Element) : Element :=
  mkElement q (next e) (list_ e) (Value e).
Definition set_next (q : ptr) (e : Element) : Element :=
  mkElement (prev e) q (list_ e) (Value e).
Definition set_list (l : option nat) (e : Element) : Element :=
  mkElement (prev e) (next e) l (Value e).

(** A composite literal whose address escapes. *)
Definition alloc (e : Element) : M ptr :=
  λ h, Ok (Elem (length (elems h))) (mkHeap (lists h) (elems h ++ [e])).

(** A zero-valued [List[T]]: [new(List[T])] or [var l List[T]]. *)
Definition alloc_list : M nat :=
  λ h, Ok (length (lists h)) (mkHeap (lists h ++ [zero_List]) (elems h)).

Definition get_size (l : nat) : M Z :=
  λ h, match lists h !! l with Some L => Ok (size L) h | None => Invalid end.

Definition set_size (l : nat) (n : Z) : M unit :=
  λ h, match lists h !! l with
       | Some _ => Ok tt (upd_size l (λ _, n) h)
       | None => Invalid
       end.

(** ** The package *)

Definition Next (e : ptr) : M ptr :=
  let! el := load e in
  match list_ el with
  | None => ret Nil
  | Some l => if decide (next el = Root l) then ret Nil else ret (next el)
  end.

Definition Prev (e : ptr) : M ptr :=
  let! el := load e in
  match list_ el with
  | None => ret Nil
  | Some l => if decide (prev el = Root l) then ret Nil else ret (prev el)
  end.

Definition Init (l : nat) : M nat :=
  modify (Root l) (set_prev (Root l)) >>
  modify (Root l) (set_next (Root l)) >>
  set_size l 0 >>
  ret l.

Definition New : M nat :=
  let! l := alloc_list in Init l.

Definition Back (l : nat) : M ptr :=
  let! n := get_size l in
  if decide (n = 0) then ret Nil
  else let! r := load (Root l) in ret (prev r).

Definition Front (l : nat) : M ptr :=
  let! n := get_size l in
  if decide (n = 0) then ret Nil
  else let! r := load (Root l) in ret (next r).

Definition insertValueAfter (l : nat) (v : T) (mark : ptr) : M ptr :=
  let! m := load mark in
  let! e := alloc (mkElement mark (next m) (Some l) v) in
  let! m1 := load mark in
  modify (next m1) (set_prev e) >>
  modify mark (set_next e) >>
  let! n := get_size l in
  set_size l (int_wrap (n + 1)) >>
  ret e.

Definition InsertAfter (l : nat) (v : T) (mark : ptr) : M ptr :=
  let! m := load mark in
  if decide (list_ m = Some l) then insertValueAfter l v mark
  else ret Nil.

Definition InsertBefore (l : nat) (v : T) (mark : ptr) : M ptr :=
  let! m := load mark in
  if decide (list_ m = Some l) then
    let! m1 := load mark in insertValueAfter l v (prev m1)
  else ret Nil.

Definition Len (l : nat) : M Z := get_size l.

Definition moveAfter (l : nat) (e mark : ptr) : M unit :=
  if decide (e = mark) then ret tt
  else
    (* fixup around old |e| position. *)
    (let! el := load e in modify (prev el) (set_next (next el))) >>
    (let! el := load e in modify (next el) (set_prev (prev el))) >>
    (* write new relatives for |e|. *)
    modify e (set_prev mark) >>
    (let! m := load mark in modify e (set_next (next m))) >>
    (* fixup around new |e| position. *)
    (let! m := load mark in modify (next m) (set_prev e)) >>
    modify mark (set_next e).

Definition MoveAfter (l : nat) (e mark : ptr) : M unit :=
  let! el := load e in
  if decide (list_ el = Some l) then
    let! m := load mark in
    if decide (list_ m = Some l) then
      if decide (e = mark) then ret tt else moveAfter l e mark
    else ret tt
  else ret tt.

Definition MoveBefore (l : nat) (e mark : ptr) : M unit :=
  let! el := load e in
  if decide (list_ el = Some l) then
    let! m := load mark in
    if decide (list_ m = Some l) then
      if decide (e = mark) then ret tt
      else let! m1 := load mark in moveAfter l e (prev m1)
    else ret tt
  else ret tt.

Definition MoveToBack (l : nat) (e : ptr) : M unit :=
  let! el := load e in
  if decide (list_ el = Some l) then
    let! r := load (Root l) in
    if decide (prev r = e) then ret tt
    else let! r1 := load (Root l) in moveAfter l e (prev r1)
  else ret tt.

Definition MoveToFront (l : nat) (e : ptr) : M unit :=
  let! el := load e in
  if decide (list_ el = Some l) then
    let! r := load (Root l) in
    if decide (next r = e) then ret tt
    else moveAfter l e (Root l)
  else ret tt.

Definition lazyInit (l : nat) : M unit :=
  let! r := load (Root l) in
  if decide (next r = Nil) then Init l >> ret tt else ret tt.

Definition PushBack (l : nat) (v : T) : M ptr :=
  lazyInit l >>
  let! r := load (Root l) in insertValueAfter l v (prev r).

(** The body of the loop of [PushBackList], run [n] times from cursor [e]. *)
Fixpoint pushBackLoop (l : nat) (n : nat) (e : ptr) : M unit :=
  match n with
  | O => ret tt
  | S n' =>
      let! el := load e in
      let! r := load (Root l) in
      insertValueAfter l (Value el) (prev r) >>
      let! e' := Next e in
      pushBackLoop l n' e'
  end.

Definition PushBackList (l other : nat) : M unit :=
  lazyInit l >>
  let! e := Front other in
  let! n := Len other in
  pushBackLoop l (Z.to_nat n) e.

Definition PushFront (l : nat) (v : T) : M ptr :=
  lazyInit l >>
  insertValueAfter l v (Root l).

Fixpoint pushFrontLoop (l : nat) (n : nat) (e : ptr) : M unit :=
  match n with
  | O => ret tt
  | S n' =>
      let! el := load e in
      insertValueAfter l (Value el) (Root l) >>
      let! e' := Prev e in
      pushFrontLoop l n' e'
  end.

Definition PushFrontList (l other : nat) : M unit :=
  lazyInit l >>
  let! e := Back other in
  let! n := Len other in
  pushFrontLoop l (Z.to_nat n) e.

Definition Remove (l : nat) (e : ptr) : M T :=
  let! el := load e in
  if decide (list_ el = Some l) then
    (let! e1 := load e in modify (prev e1) (set_next (next e1))) >>
    (let! e2 := load e in modify (next e2) (set_prev (prev e2))) >>
    modify e (set_prev Nil) >>
    modify e (set_next Nil) >>
    modify e (set_list None) >>
    (let! n := get_size l in set_size l (int_wrap (n - 1))) >>
    let! e3 := load e in ret (Value e3)
  else ret (Value el).

(** ** Client programs *)

(** One call of a mutating entry point; results are dropped. *)
Inductive op : Type :=
  | OpZero                 (* var l List[T] *)
  | OpNew                  (* New[T]() *)
  | OpElement (v : T)      (* &Element[T]{Value: v}, made by the client *)
  | OpInit (l : nat)
  | OpPushBack (l : nat) (v : T)
  | OpPushFront (l : nat) (v : T)
  | OpInsertAfter (l : nat) (v : T) (mark : ptr)
  | OpInsertBefore (l : nat) (v : T) (mark : ptr)
  | OpRemove (l : nat) (e : ptr)
  | OpMoveToFront (l : nat) (e : ptr)
  | OpMoveToBack (l : nat) (e : ptr)
  | OpMoveBefore (l : nat) (e mark : ptr)
  | OpMoveAfter (l : nat) (e mark : ptr)
  | OpPushBackList (l other : nat)
  | OpPushFrontList (l other : nat).

Definition exec (o : op) : M unit :=
  match o with
  | OpZero => alloc_list >> ret tt
  | OpNew => New >> ret tt
  | OpElement v => alloc (mkElement Nil Nil None v) >> ret tt
  | OpInit l => Init l >> ret tt
  | OpPushBack l v => PushBack l v >> ret tt
  | OpPushFront l v => PushFront l v >> ret tt
  | OpInsertAfter l v mark => InsertAfter l v mark >> ret tt
  | OpInsertBefore l v mark => InsertBefore l v mark >> ret tt
  | OpRemove l e => Remove l e >> ret tt
  | OpMoveToFront l e => MoveToFront l e
  | OpMoveToBack l e => MoveToBack l e
  | OpMoveBefore l e mark => MoveBefore l e mark
  | OpMoveAfter l e mark => MoveAfter l e mark
  | OpPushBackList l other => PushBackList l other
  | OpPushFrontList l other => PushFrontList l other
  end.

Fixpoint run (ops : list op) : M unit :=
  match ops with
  | [] => ret tt
  | o :: ops' => exec o >> run ops'
  end.

(** The heap a client program leaves behind, starting from nothing. *)
Definition heap_after (ops : list op) : heap :=
  match run ops empty_heap with
  | Ok _ h => h
  | _ => empty_heap
  end.

(** [for e := start; e != nil; e = step(e) { out = append(out, e) }],
    cut off after [fuel] iterations. *)
Fixpoint walk (step : ptr → M ptr) (fuel : nat) (e : ptr) : M (option (list ptr)) :=
  match e with
  | Nil => ret (Some [])
  | _ =>
      match fuel with
      | O => ret None
      | S fuel' =>
          let! e' := step e in
          let! r := walk step fuel' e' in
          ret (cons e <$> r)
      end
  end.

Definition forward (fuel : nat) (l : nat) : M (option (list ptr)) :=
  let! e := Front l in walk Next fuel e.

Definition backward (fuel : nat) (l : nat) : M (option (list ptr)) :=
  let! e := Back l in walk Prev fuel e.

(** ** Views of the heap *)

Definition nextOf (h : heap) (p : ptr) : option ptr := next <$> look h p.
Definition prevOf (h : heap) (p : ptr) : option ptr := prev <$> look h p.
Definition listOf (h : heap) (p : ptr) : option (option nat) := list_ <$> look h p.
Definition valueOf (h : heap) (p : ptr) : option T := Value <$> look h p.
Definition sizeOf (h : heap) (l : nat) : option Z := size <$> lists h !! l.

(** [p.next == q] and [q.prev == p]. *)
Definition linked (h : heap) (p q : ptr) : Prop :=
  nextOf h p = Some q ∧ prevOf h q = Some p.

(** Every two neighbours of [ps] are linked in both directions. *)
Fixpoint path (h : heap) (ps : list ptr) : Prop :=
  match ps with
  | [] => True
  | p :: ps' =>
      match ps' with
      | [] => True
      | q :: _ => linked h p q ∧ path h ps'
      end
  end.

(** The nodes of list [l] in ring order, beginning with the sentinel. *)
Definition cycle (l : nat) (xs : list nat) : list ptr := Root l :: (Elem <$> xs).

(** The links of list [l] form a ring through exactly the elements [xs],
    front to back, each of which names [l] as its list. *)
Definition shape (h : heap) (l : nat) (xs : list nat) : Prop :=
  path h (cycle l xs ++ [Root l]) ∧
  NoDup xs ∧
  Forall (λ a, listOf h (Elem a) = Some (Some l)) xs ∧
  listOf h (Root l) = Some None.

(** List [l] is initialised, its ring holds the elements [xs] and its
    [size] field counts them. *)
Definition ring (h : heap) (l : nat) (xs : list nat) : Prop :=
  shape h l xs ∧
  sizeOf h l = Some (Z.of_nat (length xs)) ∧
  Z.of_nat (length xs) < 2 ^ 63.

(** List [l] is still the zero value of its type. *)
Definition zero_value (h : heap) (l : nat) : Prop :=
  lists h !! l = Some zero_List.

(** The state of a list that [Init] has just run on. *)
Definition fresh_ring (h : heap) (l : nat) : Prop :=
  lists h !! l = Some (mkList (mkElement (Root l) (Root l) None zero) 0).

(** The abstraction relation: list [l] holds the elements [xs]. *)
Definition repr (h : heap) (l : nat) (xs : list nat) : Prop :=
  ring h l xs ∨ (zero_value h l ∧ xs = []).

(** Every list of the heap is a zero value or a well-formed ring. *)
Definition wf (h : heap) : Prop :=
  ∀ l, (l < length (lists h))%nat → ∃ xs, repr h l xs.

Definition values (h : heap) (xs : list nat) : list (option T) :=
  (λ a, valueOf h (Elem a)) <$> xs.

(** What an operation on list [l] leaves alone: the arena of lists keeps
    its length, no element is freed, every other list stays as it is and
    no stored value changes. *)
Definition kept (l : nat) (h h' : heap) : Prop :=
  length (lists h') = length (lists h) ∧
  (length (elems h) ≤ length (elems h'))%nat ∧
  (∀ l' ys, l' ≠ l → ring h l' ys → ring h' l' ys) ∧
  (∀ l', l' ≠ l → zero_value h l' → zero_value h' l') ∧
  (∀ q, is_Some (look h q) → valueOf h' q = valueOf h q).

(** ** Client discipline *)

(** Fewer than [2^62] elements have been allocated: no [int] can overflow
    during the next call. *)
Definition small (h : heap) : bool :=
  bool_decide (Z.of_nat (length (elems h)) < 2 ^ 62).

(** A handle the client may pass to a list: it points to an allocated
    element and is not stale, that is, its back-reference is nil or names a
    list whose walk from [Front] by [Next] still reaches it. *)
Definition usable (h : heap) (e : ptr) : bool :=
  match look h e with
  | None => false
  | Some el =>
      match list_ el with
      | None => true
      | Some l =>
          match forward (length (elems h)) l h with
          | Ok (Some ps) _ => bool_decide (e ∈ ps)
          | _ => false
          end
      end
  end.

Definition op_lists (o : op) : list nat :=
  match o with
  | OpZero | OpNew | OpElement _ => []
  | OpInit l | OpPushBack l _ | OpPushFront l _ | OpInsertAfter l _ _
  | OpInsertBefore l _ _ | OpRemove l _ | OpMoveToFront l _ | OpMoveToBack l _
  | OpMoveBefore l _ _ | OpMoveAfter l _ _ => [l]
  | OpPushBackList l other | OpPushFrontList l other => [l; other]
  end.

Definition op_handles (o : op) : list ptr :=
  match o with
  | OpZero | OpNew | OpElement _ | OpInit _ | OpPushBack _ _ | OpPushFront _ _
  | OpPushBackList _ _ | OpPushFrontList _ _ => []
  | OpInsertAfter _ _ mark | OpInsertBefore _ _ mark => [mark]
  | OpRemove _ e | OpMoveToFront _ e | OpMoveToBack _ e => [e]
  | OpMoveBefore _ e mark | OpMoveAfter _ e mark => [e; mark]
  end.

(** A call the client may make in heap [h]: every list it names exists and
    every element handle it passes is usable. *)
Definition legal (h : heap) (o : op) : bool :=
  small h &&
  forallb (λ l, bool_decide (l < length (lists h))%nat) (op_lists o) &&
  forallb (usable h) (op_handles o).

Fixpoint legal_run (ops : list op) (h : heap) : bool :=
  match ops with
  | [] => true
  | o :: ops' =>
      legal h o &&
      match exec o h with
      | Ok _ h' => legal_run ops' h'
      | _ => false
      end
  end.

(** ** The stated properties *)

(** The nodes reachable from the sentinel of list [l] via [next] links. *)
Inductive reach (h : heap) (l : nat) : ptr → Prop :=
  | reach_root : reach h l (Root l)
  | reach_next p q : reach h l p → nextOf h p = Some q → reach h l q.

(** [e.prev.next == e] and [e.next.prev == e]. *)
Definition ring_ok (h : heap) (e : ptr) : Prop :=
  ∃ el, look h e = Some el ∧
        nextOf h (prev el) = Some e ∧
        prevOf h (next el) = Some e.

Definition ring_invariant (h : heap) (l : nat) : Prop :=
  ∀ e, reach h l e → ring_ok h e.

(** [Len()] is the number of elements met from [Front()] by [Next()]. *)
Definition size_invariant (h : heap) (l : nat) : Prop :=
  ∃ fuel ps, forward fuel l h = Ok (Some ps) h ∧
             Len l h = Ok (Z.of_nat (length ps)) h.

(** [PushBack(v1); ...; PushBack(vn)] on list [l]. *)
Fixpoint pushBackAll (l : nat) (vs : list T) : M unit :=
  match vs with
  | [] => ret tt
  | v :: vs' => PushBack l v >> pushBackAll l vs'
  end.

(** ** What no call does *)

(** From [h] to [h']: nothing is freed and no stored value changes. *)
Definition steady (h h' : heap) : Prop :=
  (length (lists h) ≤ length (lists h'))%nat ∧
  (length (elems h) ≤ length (elems h'))%nat ∧
  ∀ q, is_Some (look h q) → valueOf h' q = valueOf h q.

(** A computation every successful run of which is steady. *)
Definition tame {A} (c : M A) : Prop :=
  ∀ h a h', c h = Ok a h' → steady h h'.

(** ** The heap algebra *)

Lemma int_wrap_id z : - 2 ^ 63 ≤ z < 2 ^ 63 → int_wrap z = z.
Proof.
  intros Hz. unfold int_wrap.
  rewrite Z.mod_small; lia.
Qed.

Lemma look_upd p f h q :
  look (upd p f h) q = if decide (q = p) then f <$> look h q else look h q.
Proof.
  destruct p as [|l|a], q as [|l'|a']; simpl; try done.
  - rewrite list_lookup_alter.
    destruct (decide (l = l')), (decide (Root l' = Root l)); simplify_eq; try done.
    by destruct (lists h !! l').
  - rewrite list_lookup_alter.
    destruct (decide (a = a')), (decide (Elem a' = Elem a)); simplify_eq; done.
Qed.

Lemma look_upd_size l f h q : look (upd_size l f h) q = look h q.
Proof.
  destruct q as [|l'|a']; simpl; try done.
  rewrite list_lookup_alter. destruct (decide (l = l')); simplify_eq; try done.
  by destruct (lists h !! l').
Qed.

Lemma sizeOf_upd p f h l : sizeOf (upd p f h) l = sizeOf h l.
Proof.
  unfold sizeOf. destruct p as [|l'|a]; simpl; try done.
  rewrite list_lookup_alter. destruct (decide (l' = l)); simplify_eq; try done.
  by destruct (lists h !! l).
Qed.

Lemma sizeOf_upd_size l f h l' :
  sizeOf (upd_size l f h) l' = if decide (l' = l) then f <$> sizeOf h l' else sizeOf h l'.
Proof.
  unfold sizeOf, upd_size. simpl. rewrite list_lookup_alter.
  destruct (decide (l = l')), (decide (l' = l)); simplify_eq; try done.
  by destruct (lists h !! _).
Qed.

Lemma look_alloc e h q :
  look (mkHeap (lists h) (elems h ++ [e])) q =
  if decide (q = Elem (length (elems h))) then Some e else look h q.
Proof.
  destruct q as [|l|a]; simpl; try done.
  destruct (decide (Elem a = Elem (length (elems h)))) as [E|N].
  - simplify_eq. by rewrite list_lookup_middle.
  - destruct (decide (a < length (elems h))%nat).
    + by rewrite lookup_app_l.
    + rewrite !lookup_ge_None_2; [done| lia |].
      rewrite length_app. simpl. assert (a ≠ length (elems h)) by congruence. lia.
Qed.

Lemma look_fresh h a : (length (elems h) ≤ a)%nat → look h (Elem a) = None.
Proof. intros. simpl. by apply lookup_ge_None_2. Qed.

Lemma look_Elem_lt h a e : look h (Elem a) = Some e → (a < length (elems h))%nat.
Proof. simpl. intros H. by apply lookup_lt_Some in H. Qed.

Lemma look_Root_lt h l e : look h (Root l) = Some e → (l < length (lists h))%nat.
Proof.
  simpl. intros H. destruct (lists h !! l) eqn:E; [|done].
  by apply lookup_lt_Some in E.
Qed.

Lemma length_lists_upd p f h : length (lists (upd p f h)) = length (lists h).
Proof. destruct p; simpl; try done. by rewrite length_alter. Qed.

Lemma length_elems_upd p f h : length (elems (upd p f h)) = length (elems h).
Proof. destruct p; simpl; try done. by rewrite length_alter. Qed.

Lemma length_lists_upd_size l f h : length (lists (upd_size l f h)) = length (lists h).
Proof. simpl. by rewrite length_alter. Qed.

(** *** Running one instruction *)

Lemma bind_ret {A B} (a : A) (k : A → M B) h : bind (ret a) k h = k a h.
Proof. done. Qed.

Lemma bind_ok {A B} (c : M A) (k : A → M B) h a h1 :
  c h = Ok a h1 → bind c k h = k a h1.
Proof. intros H. unfold bind. by rewrite H. Qed.

Lemma bind_bind {A B C} (c : M A) (k1 : A → M B) (k2 : B → M C) h :
  bind (bind c k1) k2 h = bind c (λ x, bind (k1 x) k2) h.
Proof. unfold bind. by destruct (c h). Qed.

Lemma bind_load {B} p e (k : Element → M B) h :
  look h p = Some e → bind (load p) k h = k e h.
Proof. intros H. unfold bind, load. by rewrite H. Qed.

Lemma bind_modify {B} p f (k : unit → M B) h :
  is_Some (look h p) → bind (modify p f) k h = k tt (upd p f h).
Proof. intros [e H]. unfold bind, modify. by rewrite H. Qed.

Lemma modify_ok p f h :
  is_Some (look h p) → modify p f h = Ok tt (upd p f h).
Proof. intros [e H]. unfold modify. by rewrite H. Qed.

Lemma load_ok p e h : look h p = Some e → load p h = Ok e h.
Proof. intros H. unfold load. by rewrite H. Qed.

Lemma bind_get_size {B} l n (k : Z → M B) h :
  sizeOf h l = Some n → bind (get_size l) k h = k n h.
Proof.
  unfold sizeOf, bind, get_size. destruct (lists h !! l); simpl; [|done].
  by intros [= <-].
Qed.

Lemma bind_set_size {B} l n n0 (k : unit → M B) h :
  sizeOf h l = Some n0 → bind (set_size l n) k h = k tt (upd_size l (λ _, n) h).
Proof.
  unfold sizeOf, bind, set_size. by destruct (lists h !! l).
Qed.

(** ** Paths *)

Lemma path_cons h p q ps : path h (p :: q :: ps) ↔ linked h p q ∧ path h (q :: ps).
Proof. done. Qed.

Lemma path_app h a m b : path h (a ++ m :: b) ↔ path h (a ++ [m]) ∧ path h (m :: b).
Proof.
  induction a as [|p a IH]; simpl.
  - tauto.
  - destruct a as [|q a]; simpl in *.
    + destruct b; tauto.
    + tauto.
Qed.

(** A path survives a change of the heap that leaves the [next] field of
    all its nodes but the last and the [prev] field of all but the first. *)
Lemma path_frame h h' ps z :
  path h (ps ++ [z]) →
  (∀ q, q ∈ ps → nextOf h' q = nextOf h q) →
  (∀ q, q ∈ tail (ps ++ [z]) → prevOf h' q = prevOf h q) →
  path h' (ps ++ [z]).
Proof.
  induction ps as [|p ps IH]; [done|].
  intros Hp Hn Hq. change ((p :: ps) ++ [z]) with (p :: (ps ++ [z])) in *.
  destruct (ps ++ [z]) as [|q r] eqn:E; [done|].
  apply path_cons in Hp as [[L1 L2] Hp]. apply path_cons. split.
  - split.
    + rewrite Hn; [done | set_solver].
    + rewrite Hq; [done | simpl; set_solver].
  - apply IH; [done | |].
    + intros; apply Hn; set_solver.
    + intros x Hx. apply Hq. simpl in *. set_solver.
Qed.

Lemma path_next h ps p q i :
  path h ps → ps !! i = Some p → ps !! S i = Some q → linked h p q.
Proof.
  revert i. induction ps as [|a ps IH]; [done|].
  intros i Hp H1 H2. destruct ps as [|b ps]; [done|].
  apply path_cons in Hp as [L Hp]. destruct i; simplify_eq/=; [done|].
  by eapply IH.
Qed.

(** Splicing node [x] between [mark] and its successor [s]. *)
Lemma path_link h h' pre mark post R s x :
  path h (pre ++ mark :: post ++ [R]) →
  head (post ++ [R]) = Some s →
  nextOf h' mark = Some x → prevOf h' x = Some mark →
  nextOf h' x = Some s → prevOf h' s = Some x →
  (∀ q, q ≠ mark → q ≠ x → nextOf h' q = nextOf h q) →
  (∀ q, q ≠ s → q ≠ x → prevOf h' q = prevOf h q) →
  mark ∉ pre → mark ∉ post → x ∉ pre → x ∉ post → x ≠ R → x ≠ mark →
  s ∉ tail (pre ++ [mark]) → s ∉ tail (post ++ [R]) →
  path h' (pre ++ mark :: x :: post ++ [R]).
Proof.
  intros Hp Hs N1 P1 N2 P2 Nf Pf D1 D2 D3 D4 D5 D6 D7 D8.
  apply path_app in Hp as [Hp1 Hp2].
  apply path_app. split.
  - apply (path_frame h); [done| |].
    + intros q Hq. apply Nf; set_solver.
    + intros q Hq. apply Pf; [set_solver|].
      intros ->. assert (x ∈ pre ++ [mark]) as Hx.
      { destruct pre; simpl in Hq; [set_solver|]. set_solver. }
      set_solver.
  - destruct (post ++ [R]) as [|s' r] eqn:E; [done|].
    injection Hs as ->.
    apply path_cons in Hp2 as [_ Hp2].
    apply path_cons; split; [done|]. apply path_cons; split; [done|].
    rewrite <- E in Hp2, D8 |- *.
    apply (path_frame h); [done| |].
    + intros q Hq. apply Nf; set_solver.
    + intros q Hq. apply Pf; [set_solver|].
      intros ->. assert (x ∈ post ++ [R]) as Hx.
      { destruct post; simpl in Hq; set_solver. }
      set_solver.
Qed.

(** Cutting node [e] out from between [p] and [s]. *)
Lemma path_unlink h h' pre p e post R s :
  path h (pre ++ p :: e :: post ++ [R]) →
  head (post ++ [R]) = Some s →
  nextOf h' p = Some s → prevOf h' s = Some p →
  (∀ q, q ≠ p → q ≠ e → nextOf h' q = nextOf h q) →
  (∀ q, q ≠ s → q ≠ e → prevOf h' q = prevOf h q) →
  p ∉ pre → p ∉ post → e ∉ pre → e ∉ post → e ≠ R → e ≠ p →
  s ∉ tail (pre ++ [p]) → s ∉ tail (post ++ [R]) →
  path h' (pre ++ p :: post ++ [R]).
Proof.
  intros Hp Hs N1 P1 Nf Pf D1 D2 D3 D4 D5 D6 D7 D8.
  apply path_app in Hp as [Hp1 Hp2].
  apply path_app. split.
  - apply (path_frame h); [done| |].
    + intros q Hq. apply Nf; set_solver.
    + intros q Hq. apply Pf; [set_solver|].
      intros ->. assert (e ∈ pre ++ [p]) as Hx.
      { destruct pre; simpl in Hq; [set_solver|]. set_solver. }
      set_solver.
  - destruct (post ++ [R]) as [|s' r] eqn:E; [done|].
    injection Hs as ->.
    apply path_cons in Hp2 as [_ Hp2]. apply path_cons in Hp2 as [_ Hp2].
    apply path_cons; split; [done|].
    rewrite <- E in Hp2, D8 |- *.
    apply (path_frame h); [done| |].
    + intros q Hq. apply Nf; set_solver.
    + intros q Hq. apply Pf; [set_solver|].
      intros ->. assert (e ∈ post ++ [R]) as Hx.
      { destruct post; simpl in Hq; set_solver. }
      set_solver.
Qed.

(** ** Rings *)

Lemma elem_of_tail {A} (x : A) (l : list A) : x ∈ tail l → x ∈ l.
Proof. destruct l; simpl; set_solver. Qed.

#[local] Instance Elem_inj : Inj (=) (=) Elem.
Proof. by intros a b [= ->]. Qed.

Lemma NoDup_cycle l xs : NoDup xs → NoDup (cycle l xs).
Proof.
  intros H. apply NoDup_cons. split.
  - intros (a & ? & _)%list_elem_of_fmap. done.
  - by apply (NoDup_fmap_2 Elem).
Qed.

Lemma elem_of_cycle l xs p :
  p ∈ cycle l xs ↔ p = Root l ∨ ∃ a, p = Elem a ∧ a ∈ xs.
Proof. unfold cycle. rewrite elem_of_cons, list_elem_of_fmap. done. Qed.

Lemma cycle_lookup_S l xs i : cycle l xs !! S i = Elem <$> xs !! i.
Proof. unfold cycle. simpl. by rewrite list_lookup_fmap. Qed.

Lemma cycle_split l xs i mark :
  cycle l xs !! i = Some mark →
  cycle l xs = take i (cycle l xs) ++ mark :: (Elem <$> drop i xs) ∧
  take i (cycle l xs) ++ [mark] = cycle l (take i xs).
Proof.
  intros H. split.
  - rewrite <- (take_drop_middle _ _ _ H) at 1. do 2 f_equal.
    unfold cycle. simpl. by rewrite fmap_drop.
  - rewrite <- (take_S_r _ _ _ H). unfold cycle. simpl. by rewrite fmap_take.
Qed.

(** The successor of the [i]-th node of the ring. *)
Lemma shape_next h l xs i p :
  shape h l xs → cycle l xs !! i = Some p →
  ∃ s, (cycle l xs ++ [Root l]) !! S i = Some s ∧ linked h p s.
Proof.
  intros (Hp & _) Hi.
  assert (is_Some ((cycle l xs ++ [Root l]) !! S i)) as [s Hs].
  { apply lookup_lt_is_Some. apply lookup_lt_Some in Hi.
    rewrite length_app. change (length [Root l]) with 1%nat. lia. }
  exists s. split; [done|].
  eapply path_next; [done| |done]. by apply lookup_app_l_Some.
Qed.

Lemma ring_head_drop l xs i s :
  (i ≤ length xs)%nat →
  (cycle l xs ++ [Root l]) !! S i = Some s →
  head ((Elem <$> drop i xs) ++ [Root l]) = Some s.
Proof.
  intros Hi Hs. rewrite <- Hs. unfold cycle. simpl.
  rewrite <- (take_drop i xs) at 2. rewrite fmap_app, <- app_assoc.
  rewrite lookup_app_r; rewrite length_fmap, length_take; [|lia].
  replace (i - i `min` length xs)%nat with 0%nat by lia.
  by destruct (Elem <$> drop i xs).
Qed.

Lemma shape_valid h l xs p : shape h l xs → p ∈ cycle l xs → is_Some (look h p).
Proof.
  intros Hr (i & Hi)%list_elem_of_lookup.
  destruct (shape_next _ _ _ _ _ Hr Hi) as (s & _ & [Hn _]).
  unfold nextOf in Hn. destruct (look h p); [eauto | done].
Qed.

Lemma shape_elem_lt h l xs a : shape h l xs → a ∈ xs → (a < length (elems h))%nat.
Proof.
  intros Hr Ha. destruct (shape_valid h l xs (Elem a) Hr) as [e He].
  - apply elem_of_cycle. eauto.
  - by eapply look_Elem_lt.
Qed.

Lemma shape_length h l xs : shape h l xs → (length xs ≤ length (elems h))%nat.
Proof.
  intros Hr. pose proof Hr as (_ & Hnd & _).
  transitivity (length (seq 0 (length (elems h)))); [|by rewrite length_seq].
  apply submseteq_length, NoDup_submseteq; [done|].
  intros a Ha. apply elem_of_seq. pose proof (shape_elem_lt _ _ _ _ Hr Ha). lia.
Qed.

Lemma shape_link h h' l xs i mark s a :
  shape h l xs →
  cycle l xs !! i = Some mark →
  nextOf h mark = Some s →
  a ∉ xs →
  nextOf h' mark = Some (Elem a) → prevOf h' (Elem a) = Some mark →
  nextOf h' (Elem a) = Some s → prevOf h' s = Some (Elem a) →
  (∀ q, q ≠ mark → q ≠ Elem a → nextOf h' q = nextOf h q) →
  (∀ q, q ≠ s → q ≠ Elem a → prevOf h' q = prevOf h q) →
  listOf h' (Elem a) = Some (Some l) →
  (∀ q, q ≠ Elem a → listOf h' q = listOf h q) →
  shape h' l (take i xs ++ a :: drop i xs).
Proof.
  intros Hr Hi Hs Ha N1 P1 N2 P2 Nf Pf L1 Lf.
  destruct (shape_next _ _ _ _ _ Hr Hi) as (s' & Hs' & [Hn _]).
  assert (s' = s) as -> by congruence. clear Hn.
  pose proof Hr as (Hp & Hnd & Hl & Hrl).
  assert (i ≤ length xs)%nat as Hile.
  { apply lookup_lt_Some in Hi. unfold cycle in Hi. simpl in Hi.
    rewrite length_fmap in Hi. lia. }
  apply ring_head_drop in Hs'; [|done].
  destruct (cycle_split _ _ _ _ Hi) as [E1 E2].
  pose proof (NoDup_cycle l xs Hnd) as HC. rewrite E1 in HC.
  apply NoDup_app in HC as (HC1 & HC2 & HC3).
  apply NoDup_cons in HC3 as [HC3 HC4].
  assert (Elem a ∉ cycle l xs) as HaC.
  { rewrite elem_of_cycle. intros [?|(b & [= ->] & ?)]; done. }
  assert (Root l ∈ take i (cycle l xs) ++ [mark]) as HR.
  { rewrite E2. apply elem_of_cycle. eauto. }
  repeat split.
  - replace (cycle l (take i xs ++ a :: drop i xs) ++ [Root l])
      with (take i (cycle l xs) ++ mark :: Elem a :: (Elem <$> drop i xs) ++ [Root l]).
    2:{ unfold cycle at 2. rewrite fmap_app, fmap_cons.
        change (Root l :: ?x ++ ?y) with (cycle l (take i xs) ++ y).
        rewrite <- E2, <- !app_assoc. done. }
    rewrite E1, <- app_assoc in Hp. simpl in Hp.
    eapply path_link; try done.
    + set_solver.
    + rewrite E1 in HaC. set_solver.
    + rewrite E1 in HaC. set_solver.
    + rewrite E1 in HaC. set_solver.
    + intros Hin. destruct (Elem <$> drop i xs) as [|s0 r] eqn:E; simplify_eq/=.
      * rewrite E2 in Hin. simpl in Hin.
        apply list_elem_of_fmap in Hin as (? & ? & ?). done.
      * apply elem_of_tail in Hin. set_solver.
    + intros Hin. destruct (Elem <$> drop i xs) as [|s0 r] eqn:E; simplify_eq/=.
      * set_solver.
      * apply NoDup_cons in HC4 as [HC4 _]. set_solver.
  - apply NoDup_app. pose proof Hnd as Hnd'.
    rewrite <- (take_drop i xs) in Hnd'. apply NoDup_app in Hnd'.
    assert ((a ∉ take i xs) ∧ (a ∉ drop i xs)) as [? ?].
    { rewrite <- (take_drop i xs) in Ha. set_solver. }
    destruct Hnd' as (? & ? & ?). repeat split; [done| |].
    + set_solver.
    + apply NoDup_cons. done.
  - apply Forall_forall. intros b Hb.
    destruct (decide (b = a)) as [->|]; [done|].
    rewrite Lf; [|congruence]. rewrite Forall_forall in Hl. apply Hl.
    rewrite <- (take_drop i xs). set_solver.
  - rewrite Lf; done.
Qed.

Lemma shape_unlink h h' l xs j a p s :
  shape h l xs → xs !! j = Some a →
  prevOf h (Elem a) = Some p → nextOf h (Elem a) = Some s →
  nextOf h' p = Some s → prevOf h' s = Some p →
  (∀ q, q ≠ p → q ≠ Elem a → nextOf h' q = nextOf h q) →
  (∀ q, q ≠ s → q ≠ Elem a → prevOf h' q = prevOf h q) →
  (∀ q, q ≠ Elem a → listOf h' q = listOf h q) →
  shape h' l (delete j xs).
Proof.
  intros Hr Hj Hp Hs N1 P1 Nf Pf Lf.
  assert (cycle l xs !! S j = Some (Elem a)) as Hj'.
  { by rewrite cycle_lookup_S, Hj. }
  assert (is_Some (cycle l xs !! j)) as [p' Hp'].
  { apply lookup_lt_is_Some. apply lookup_lt_Some in Hj'. lia. }
  destruct (shape_next _ _ _ _ _ Hr Hp') as (e' & He' & [_ Hpe]).
  rewrite (lookup_app_l_Some _ _ _ _ Hj') in He'. injection He' as <-.
  assert (p' = p) as -> by congruence.
  destruct (shape_next _ _ _ _ _ Hr Hj') as (s' & Hs' & [Hn _]).
  assert (s' = s) as -> by congruence. clear Hn Hpe.
  pose proof Hr as (Hpath & Hnd & Hl & Hrl).
  assert (S j ≤ length xs)%nat as Hjle.
  { apply lookup_lt_Some in Hj. lia. }
  apply ring_head_drop in Hs'; [|done].
  destruct (cycle_split _ _ _ _ Hp') as [E1 E2].
  rewrite (drop_S _ _ _ Hj), fmap_cons in E1.
  pose proof (NoDup_cycle l xs Hnd) as HC. rewrite E1 in HC.
  apply NoDup_app in HC as (HC1 & HC2 & HC3).
  apply NoDup_cons in HC3 as [HC3 HC4].
  apply NoDup_cons in HC4 as [HC4 HC5].
  assert (Root l ∈ take j (cycle l xs) ++ [p]) as HR.
  { rewrite E2. apply elem_of_cycle. eauto. }
  repeat split.
  - replace (cycle l (delete j xs) ++ [Root l])
      with (take j (cycle l xs) ++ p :: (Elem <$> drop (S j) xs) ++ [Root l]).
    2:{ rewrite delete_take_drop. unfold cycle at 2. rewrite fmap_app.
        change (Root l :: ?x ++ ?y) with (cycle l (take j xs) ++ y).
        rewrite <- E2, <- !app_assoc. done. }
    rewrite E1, <- app_assoc in Hpath. simpl in Hpath.
    eapply (path_unlink h h' _ p (Elem a)); try done.
    + set_solver.
    + set_solver.
    + set_solver.
    + set_solver.
    + intros Hin. destruct (Elem <$> drop (S j) xs) as [|s0 r] eqn:E; simplify_eq/=.
      * rewrite E2 in Hin. simpl in Hin.
        apply list_elem_of_fmap in Hin as (? & ? & ?). done.
      * apply elem_of_tail in Hin. set_solver.
    + intros Hin. destruct (Elem <$> drop (S j) xs) as [|s0 r] eqn:E; simplify_eq/=.
      * set_solver.
      * apply NoDup_cons in HC5 as [HC5 _]. set_solver.
  - eapply sublist_NoDup; [done | apply sublist_delete].
  - apply Forall_forall. intros b Hb.
    assert (b ≠ a) as Hba.
    { intros ->. rewrite delete_take_drop in Hb.
      rewrite <- (take_drop_middle _ _ _ Hj) in Hnd.
      apply NoDup_app in Hnd as (_ & Hn1 & Hn2).
      apply NoDup_cons in Hn2 as [Hn2 _].
      apply elem_of_app in Hb as [Hb|Hb]; [|done].
      apply (Hn1 _ Hb). set_solver. }
    rewrite Lf; [|congruence]. rewrite Forall_forall in Hl. apply Hl.
    by eapply list_elem_of_delete_inv.
  - rewrite Lf; done.
Qed.

(** A ring is determined by the heap. *)
Lemma path_unique h (R : nat) p (xs ys : list nat) :
  path h (p :: (Elem <$> xs) ++ [Root R]) →
  path h (p :: (Elem <$> ys) ++ [Root R]) → xs = ys.
Proof.
  revert p ys. induction xs as [|x xs IH]; intros p [|y ys] H1 H2; try done.
  - simpl in *. destruct H1 as [[H1 _] _], H2 as [[H2 _] _]. congruence.
  - simpl in *. destruct H1 as [[H1 _] _], H2 as [[H2 _] _]. congruence.
  - rewrite !fmap_cons in *.
    change ((?a :: ?b) ++ ?c) with (a :: (b ++ c)) in *.
    apply path_cons in H1 as [[H1 _] H1'], H2 as [[H2 _] H2'].
    assert (x = y) as -> by congruence. f_equal. by eapply IH.
Qed.

Lemma ring_unique h l xs ys : ring h l xs → ring h l ys → xs = ys.
Proof. intros [[H1 _] _] [[H2 _] _]. exact (path_unique h l (Root l) xs ys H1 H2). Qed.

Lemma ring_not_zero h l xs : ring h l xs → zero_value h l → False.
Proof.
  intros [Hr _] Hz. destruct (shape_next h l xs 0 (Root l) Hr eq_refl) as (s & Hs & [Hn _]).
  unfold nextOf, zero_value in *. simpl in Hn. rewrite Hz in Hn. simpl in Hn.
  simplify_eq. destruct xs; done.
Qed.

Lemma repr_unique h l xs ys : repr h l xs → repr h l ys → xs = ys.
Proof.
  intros [H1|[H1 ->]] [H2|[H2 ->]]; try done.
  - by eapply ring_unique.
  - by destruct (ring_not_zero _ _ _ H1 H2).
  - by destruct (ring_not_zero _ _ _ H2 H1).
Qed.

(** *** Frames: what a write outside of a list does to it *)

Lemma ring_frame h h' l xs :
  ring h l xs →
  (∀ q, q ∈ cycle l xs → look h' q = look h q) →
  sizeOf h' l = sizeOf h l →
  ring h' l xs.
Proof.
  intros Hr Hf Hsz. pose proof Hr as ((Hp & Hnd & Hl & Hrl) & Hs & Hlt).
  assert (Root l ∈ cycle l xs) as HR by (apply elem_of_cycle; eauto).
  repeat split; try done.
  - apply (path_frame h); [done| |].
    + intros q Hq. unfold nextOf. by rewrite Hf.
    + intros q Hq. unfold prevOf. rewrite Hf; [done|].
      apply elem_of_tail in Hq. set_solver.
  - apply Forall_forall. intros a Ha. rewrite Forall_forall in Hl.
    unfold listOf. rewrite Hf; [by apply Hl|]. apply elem_of_cycle. eauto.
  - unfold listOf. by rewrite Hf.
  - congruence.
Qed.

Lemma lists_upd_ne p f h l : p ≠ Root l → lists (upd p f h) !! l = lists h !! l.
Proof.
  destruct p as [|l'|a]; simpl; try done.
  intros Hne. apply list_lookup_alter_ne. congruence.
Qed.

Lemma lists_upd_size_ne l f h l' : l' ≠ l → lists (upd_size l f h) !! l' = lists h !! l'.
Proof. intros Hne. simpl. by apply list_lookup_alter_ne. Qed.

Lemma elems_upd_size l f h : elems (upd_size l f h) = elems h.
Proof. done. Qed.

Lemma elems_upd_ne p f h a : p ≠ Elem a → elems (upd p f h) !! a = elems h !! a.
Proof.
  destruct p as [|l'|a']; simpl; try done.
  intros Hne. apply list_lookup_alter_ne. congruence.
Qed.

Lemma ring_frame_lists h h' l ys :
  ring h l ys →
  lists h' !! l = lists h !! l →
  (∀ a, a ∈ ys → elems h' !! a = elems h !! a) →
  ring h' l ys.
Proof.
  intros Hr Hl He. apply (ring_frame h); [done| |].
  - intros q [->|(a & -> & Ha)]%elem_of_cycle; simpl; [by rewrite Hl | by apply He].
  - unfold sizeOf. by rewrite Hl.
Qed.

Lemma repr_frame h h' l ys :
  repr h l ys →
  lists h' !! l = lists h !! l →
  (∀ a, a ∈ ys → elems h' !! a = elems h !! a) →
  repr h' l ys.
Proof.
  intros [Hr|[Hz ->]] Hl He.
  - left. by apply (ring_frame_lists h).
  - right. split; [|done]. unfold zero_value. by rewrite Hl.
Qed.

Lemma kept_refl l h : kept l h h.
Proof. unfold kept. split_and!; auto. Qed.

Lemma kept_repr l h h' l' ys : kept l h h' → l' ≠ l → repr h l' ys → repr h' l' ys.
Proof.
  intros (_ & _ & Hr & Hz & _) Hne [Hy|[Hy ->]]; [left|right]; eauto.
Qed.

Lemma kept_valid l h h' q : kept l h h' → is_Some (look h q) → is_Some (look h' q).
Proof.
  intros (_ & _ & _ & _ & Hv) [e He]. specialize (Hv q (ex_intro _ e He)).
  unfold valueOf in Hv. rewrite He in Hv. destruct (look h' q); [eauto|done].
Qed.

Lemma kept_trans l h h1 h2 : kept l h h1 → kept l h1 h2 → kept l h h2.
Proof.
  intros K1 K2. pose proof (λ q, kept_valid l h h1 q K1) as Hv.
  destruct K1 as (A1 & B1 & C1 & Z1 & D1), K2 as (A2 & B2 & C2 & Z2 & D2).
  unfold kept. split_and!.
  - congruence.
  - lia.
  - intros l' ys Hne Hr. by apply C2, C1.
  - intros l' Hne Hr. by apply Z2, Z1.
  - intros q Hq. rewrite D2, D1; eauto.
Qed.

Lemma shape_other_elem h l xs l' ys a :
  l' ≠ l → shape h l xs → ring h l' ys → a ∈ ys → a ∉ xs.
Proof.
  intros Hne (_ & _ & Hl & _) [(_ & _ & Hl' & _) _] Ha Hx.
  rewrite Forall_forall in Hl, Hl'. specialize (Hl _ Hx). specialize (Hl' _ Ha).
  congruence.
Qed.

Lemma repr_elem_lt h l xs a : repr h l xs → a ∈ xs → (a < length (elems h))%nat.
Proof.
  intros [[Hr _]|[_ ->]] Ha; [by eapply shape_elem_lt | set_solver].
Qed.

Lemma kept_intro l xs h h' :
  shape h l xs →
  length (lists h') = length (lists h) →
  (length (elems h) ≤ length (elems h'))%nat →
  (∀ l', l' ≠ l → lists h' !! l' = lists h !! l') →
  (∀ a, a ∉ xs → (a < length (elems h))%nat → elems h' !! a = elems h !! a) →
  (∀ q, is_Some (look h q) → valueOf h' q = valueOf h q) →
  kept l h h'.
Proof.
  intros Hr A B C D E. unfold kept. split_and!; try done.
  - intros l' ys Hne Hy. apply (ring_frame_lists h); [done|by apply C|].
    intros a Ha. apply D.
    + by eapply shape_other_elem.
    + destruct Hy as [Hy _]. by eapply shape_elem_lt.
  - intros l' Hne Hz. unfold zero_value in *. by rewrite C.
Qed.

Ltac look_simpl :=
  unfold nextOf, prevOf, listOf, valueOf;
  rewrite ?look_upd_size, ?look_upd, ?look_alloc;
  repeat match goal with Ea : ?a = length (elems ?h) |- _ => rewrite <- ?Ea end.

Ltac look_crush :=
  look_simpl; repeat case_decide; simplify_eq;
  repeat match goal with H : look ?h ?p = _ |- context [look ?h ?p] => rewrite H end;
  try done;
  try (simpl; congruence);
  try (match goal with |- context [look ?h ?q] => destruct (look h q) end; done).

(** One instruction of a straight-line computation. *)
Ltac exec_step :=
  rewrite ?bind_bind;
  first
    [ rewrite bind_ret
    | erewrite bind_load; [|by look_crush]
    | rewrite bind_modify; [|by look_crush]
    | erewrite bind_get_size; [|by rewrite ?sizeOf_upd_size, ?sizeOf_upd]
    | erewrite bind_set_size; [|by rewrite ?sizeOf_upd_size, ?sizeOf_upd] ].

(** ** The entry points on well-formed rings *)

Lemma insertValueAfter_ring h l xs i mark v :
  ring h l xs → cycle l xs !! i = Some mark →
  Z.of_nat (length xs) + 1 < 2 ^ 63 →
  ∃ h', insertValueAfter l v mark h = Ok (Elem (length (elems h))) h' ∧
        ring h' l (take i xs ++ length (elems h) :: drop i xs) ∧
        valueOf h' (Elem (length (elems h))) = Some v ∧
        length (elems h') = S (length (elems h)) ∧
        kept l h h'.
Proof.
  intros Hring Hi Hlt. pose proof Hring as (Hr & Hsz & _).
  destruct (shape_next _ _ _ _ _ Hr Hi) as (s & Hs & [Hn _]).
  assert (s ∈ cycle l xs) as HsC.
  { apply list_elem_of_lookup_2 in Hs. apply elem_of_app in Hs as [?|Hs]; [done|].
    apply list_elem_of_singleton in Hs as ->. apply elem_of_cycle. eauto. }
  assert (mark ∈ cycle l xs) as HmC by by eapply list_elem_of_lookup_2.
  destruct (shape_valid _ _ _ _ Hr HmC) as [m Hm].
  destruct (shape_valid _ _ _ _ Hr HsC) as [sm Hsm].
  assert (next m = s) as Hms.
  { unfold nextOf in Hn. rewrite Hm in Hn. by injection Hn. }
  assert (look h (Elem (length (elems h))) = None) as Hfresh by by apply look_fresh.
  assert (length (elems h) ∉ xs) as Hax.
  { intros Hin. pose proof (shape_elem_lt _ _ _ _ Hr Hin). lia. }
  remember (length (elems h)) as a eqn:Ea.
  assert (mark ≠ Elem a) as Hma by congruence.
  assert (s ≠ Elem a) as Hsa by congruence.
  eexists. split; [|split; [|split; [|split]]].
  - unfold insertValueAfter.
    rewrite (bind_load _ _ _ _ Hm). unfold bind at 1, alloc at 1. rewrite <- Ea.
    erewrite bind_load; [|by look_crush].
    rewrite bind_modify; [|rewrite Hms; by look_crush].
    rewrite bind_modify; [|by look_crush].
    erewrite bind_get_size; [|by rewrite !sizeOf_upd].
    erewrite bind_set_size; [|by rewrite !sizeOf_upd].
    rewrite int_wrap_id by lia. reflexivity.
  - split.
    + eapply (shape_link h _ l xs i mark s a); try done.
      all: try (intros q Hq1 Hq2); try (intros q Hq1).
      all: rewrite ?Hms; by look_crush.
    + assert (length (take i xs ++ a :: drop i xs) = S (length xs)) as ->.
      { rewrite length_app. simpl. rewrite length_take, length_drop.
        apply lookup_lt_Some in Hi. unfold cycle in Hi. simpl in Hi.
        rewrite length_fmap in Hi. lia. }
      split; [|lia].
      rewrite sizeOf_upd_size, decide_True, !sizeOf_upd by done.
      unfold sizeOf in *. simpl. rewrite Hsz. simpl. f_equal. lia.
  - by look_crush.
  - rewrite elems_upd_size, !length_elems_upd. simpl.
    rewrite length_app. simpl. lia.
  - rewrite Hms. apply (kept_intro l xs); try done.
    + by rewrite length_lists_upd_size, !length_lists_upd.
    + rewrite elems_upd_size, !length_elems_upd. simpl. rewrite length_app. lia.
    + intros l' Hne. rewrite lists_upd_size_ne by done.
      rewrite !lists_upd_ne; [done| |].
      * intros ->. apply elem_of_cycle in HsC as [[=]|(? & [=] & _)]. done.
      * intros ->. apply elem_of_cycle in HmC as [[=]|(? & [=] & _)]. done.
    + intros b Hb Hlt'. rewrite elems_upd_size.
      rewrite !elems_upd_ne.
      * simpl. by rewrite lookup_app_l by lia.
      * intros ->. apply elem_of_cycle in HsC as [[=]|(? & [= ->] & ?)]. done.
      * intros ->. apply elem_of_cycle in HmC as [[=]|(? & [= ->] & ?)]. done.
    + intros q [e He]. by look_crush.
Qed.

Lemma elem_of_cycle_snoc l xs i s :
  (cycle l xs ++ [Root l]) !! i = Some s → s ∈ cycle l xs.
Proof.
  intros Hs. apply list_elem_of_lookup_2 in Hs. apply elem_of_app in Hs as [?|Hs]; [done|].
  apply list_elem_of_singleton in Hs as ->. apply elem_of_cycle. eauto.
Qed.

(** An element of the ring, its record and its two neighbours. *)
Lemma shape_elem h l xs j a :
  shape h l xs → xs !! j = Some a →
  ∃ el, look h (Elem a) = Some el ∧ list_ el = Some l ∧
    cycle l xs !! j = Some (prev el) ∧
    (cycle l xs ++ [Root l]) !! S (S j) = Some (next el) ∧
    prev el ≠ Elem a ∧ next el ≠ Elem a ∧
    is_Some (look h (prev el)) ∧ is_Some (look h (next el)).
Proof.
  intros Hr Hj.
  assert (cycle l xs !! S j = Some (Elem a)) as Hj'.
  { by rewrite cycle_lookup_S, Hj. }
  assert (is_Some (cycle l xs !! j)) as [p Hp].
  { apply lookup_lt_is_Some. apply lookup_lt_Some in Hj'. lia. }
  destruct (shape_next _ _ _ _ _ Hr Hp) as (e' & He' & [_ Hpe]).
  rewrite (lookup_app_l_Some _ _ _ _ Hj') in He'. injection He' as <-.
  destruct (shape_next _ _ _ _ _ Hr Hj') as (s & Hs & [Hn _]).
  destruct (shape_valid h l xs (Elem a) Hr) as [el Hel].
  { by eapply list_elem_of_lookup_2. }
  unfold nextOf, prevOf in *. rewrite Hel in Hn, Hpe. simpl in Hn, Hpe. simplify_eq.
  pose proof Hr as (_ & Hnd & Hl & _).
  pose proof (NoDup_cycle l xs Hnd) as HC.
  exists el. repeat split; try done.
  - rewrite Forall_forall in Hl. specialize (Hl a (list_elem_of_lookup_2 _ _ _ Hj)).
    unfold listOf in Hl. rewrite Hel in Hl. by simplify_eq/=.
  - intros E. rewrite E in Hp. pose proof (NoDup_lookup _ _ _ _ HC Hp Hj'). lia.
  - intros E. rewrite E in Hs.
    apply lookup_app_Some in Hs as [Hs|[_ Hs]].
    + pose proof (NoDup_lookup _ _ _ _ HC Hs Hj'). lia.
    + by apply list_lookup_singleton_Some in Hs as [_ ?].
  - eapply shape_valid; [done|]. by eapply list_elem_of_lookup_2.
  - eapply shape_valid; [done|]. by eapply elem_of_cycle_snoc.
Qed.

Lemma cycle_not_root l xs l' : l' ≠ l → Root l' ∉ cycle l xs.
Proof. intros Hne [[=]|(? & [=] & _)]%elem_of_cycle. done. Qed.

Lemma cycle_not_elem l xs b : b ∉ xs → Elem b ∉ cycle l xs.
Proof. intros Hne [[=]|(? & [= ->] & ?)]%elem_of_cycle. done. Qed.

Lemma Remove_ring h l xs j a :
  ring h l xs → xs !! j = Some a →
  ∃ h' v, Remove l (Elem a) h = Ok v h' ∧
          valueOf h (Elem a) = Some v ∧
          ring h' l (delete j xs) ∧
          look h' (Elem a) = Some (mkElement Nil Nil None v) ∧
          sizeOf h' l = Some (Z.of_nat (length xs) - 1) ∧
          length (elems h') = length (elems h) ∧
          kept l h h'.
Proof.
  intros Hring Hj. pose proof Hring as (Hr & Hsz & Hrange).
  destruct (shape_elem _ _ _ _ _ Hr Hj) as (el & Hel & Hl & Hp & Hs & Hpe & Hse & Hvp & Hvs).
  assert (prev el ∈ cycle l xs) as HpC by by eapply list_elem_of_lookup_2.
  assert (next el ∈ cycle l xs) as HsC by by eapply elem_of_cycle_snoc.
  destruct Hvp as [pe Hpv], Hvs as [se Hsv].
  assert (0 < length xs)%nat as Hpos by (apply lookup_lt_Some in Hj; lia).
  pose proof (shape_length _ _ _ Hr) as Hlen.
  eexists _, (Value el). split; [|split; [|split; [|split; [|split; [|split]]]]].
  - unfold Remove.
    rewrite (bind_load _ _ _ _ Hel). rewrite decide_True by done.
    do 10 exec_step.
    rewrite int_wrap_id by lia. reflexivity.
  - unfold valueOf. by rewrite Hel.
  - split.
    + eapply (shape_unlink h _ l xs j a (prev el) (next el)); try done.
      all: try (intros q Hq1 Hq2); try (intros q Hq1).
      all: by look_crush.
    + rewrite length_delete by eauto. split; [|lia].
      rewrite sizeOf_upd_size, decide_True, !sizeOf_upd by done.
      rewrite Hsz. simpl. f_equal. lia.
  - look_crush.
  - rewrite sizeOf_upd_size, decide_True, !sizeOf_upd by done. by rewrite Hsz.
  - by rewrite elems_upd_size, !length_elems_upd.
  - apply (kept_intro l xs); try done.
    + by rewrite length_lists_upd_size, !length_lists_upd.
    + by rewrite elems_upd_size, !length_elems_upd.
    + intros l' Hne. rewrite lists_upd_size_ne by done.
      pose proof (cycle_not_root l xs l' Hne).
      rewrite !lists_upd_ne; [done|congruence..].
    + intros b Hb Hlt'. rewrite elems_upd_size.
      pose proof (cycle_not_elem l xs b Hb).
      assert (a ≠ b) by (intros ->; apply Hb; by eapply list_elem_of_lookup_2).
      rewrite !elems_upd_ne; [done|congruence..].
    + intros q [e He]. by look_crush.
Qed.

Lemma moveAfter_ring h l xs j a i mark :
  ring h l xs → xs !! j = Some a → cycle l (delete j xs) !! i = Some mark →
  ∃ h', moveAfter l (Elem a) mark h = Ok tt h' ∧
        ring h' l (take i (delete j xs) ++ a :: drop i (delete j xs)) ∧
        length (elems h') = length (elems h) ∧
        kept l h h'.
Proof.
  intros Hring Hj Hi. pose proof Hring as (Hr & Hsz & Hrange).
  destruct (shape_elem _ _ _ _ _ Hr Hj) as (el & Hel & Hl & Hp & Hs & Hpe & Hse & Hvp & Hvs).
  assert (prev el ∈ cycle l xs) as HpC by by eapply list_elem_of_lookup_2.
  assert (next el ∈ cycle l xs) as HsC by by eapply elem_of_cycle_snoc.
  destruct Hvp as [pe Hpv], Hvs as [se Hsv].
  assert (a ∉ delete j xs) as Ha'.
  { pose proof Hr as (_ & Hnd & _). rewrite delete_take_drop.
    rewrite <- (take_drop_middle _ _ _ Hj) in Hnd.
    apply NoDup_app in Hnd as (_ & Hn1 & Hn2).
    apply NoDup_cons in Hn2 as [Hn2 _].
    intros [Hb|Hb]%elem_of_app; [|done]. apply (Hn1 _ Hb). set_solver. }
  assert (∀ q, q ∈ cycle l (delete j xs) → q ∈ cycle l xs) as Hsub.
  { intros q [->|(b & -> & Hb)]%elem_of_cycle; apply elem_of_cycle; [eauto|].
    right. exists b. split; [done|]. by eapply list_elem_of_delete_inv. }
  assert (mark ∈ cycle l (delete j xs)) as HmC by by eapply list_elem_of_lookup_2.
  assert (mark ≠ Elem a) as Hma.
  { intros ->. by apply (cycle_not_elem l (delete j xs) a). }
  remember (upd (next el) (set_prev (prev el)) (upd (prev el) (set_next (next el)) h))
    as h2 eqn:E2.
  assert (shape h2 l (delete j xs)) as Hr2.
  { subst h2. eapply (shape_unlink h _ l xs j a (prev el) (next el)); try done.
    all: try (intros q Hq1 Hq2); try (intros q Hq1).
    all: by look_crush. }
  assert (look h2 (Elem a) = Some el) as Hel2 by (subst h2; by look_crush).
  destruct (shape_next _ _ _ _ _ Hr2 Hi) as (s2 & Hs2 & [Hn2 _]).
  assert (s2 ∈ cycle l (delete j xs)) as Hs2C by by eapply elem_of_cycle_snoc.
  assert (s2 ≠ Elem a) as Hs2a.
  { intros ->. by apply (cycle_not_elem l (delete j xs) a). }
  destruct (shape_valid _ _ _ _ Hr2 HmC) as [m2 Hm2].
  destruct (shape_valid _ _ _ _ Hr2 Hs2C) as [sm2 Hsm2].
  assert (next m2 = s2) as Hms2.
  { unfold nextOf in Hn2. rewrite Hm2 in Hn2. by injection Hn2. }
  eexists. split; [|split; [|split]].
  - unfold moveAfter. rewrite decide_False by congruence.
    do 4 exec_step. rewrite <- E2.
    do 5 exec_step. rewrite modify_ok by (by look_crush).
    rewrite Hms2. reflexivity.
  - split.
    + eapply (shape_link h2 _ l (delete j xs) i mark s2 a); try done.
      all: try (intros q Hq1 Hq2); try (intros q Hq1).
      all: by look_crush.
    + assert (length (take i (delete j xs) ++ a :: drop i (delete j xs)) = length xs) as ->.
      { rewrite length_app. simpl. rewrite length_take, length_drop.
        apply lookup_lt_Some in Hi. unfold cycle in Hi. simpl in Hi.
        rewrite length_fmap in Hi. rewrite length_delete in * by eauto.
        apply lookup_lt_Some in Hj. lia. }
      split; [|done]. subst h2. by rewrite !sizeOf_upd.
  - subst h2. by rewrite !length_elems_upd.
  - subst h2. apply (kept_intro l xs); try done.
    + by rewrite !length_lists_upd.
    + by rewrite !length_elems_upd.
    + intros l' Hne.
      pose proof (cycle_not_root l xs l' Hne) as Hnr.
      assert (mark ≠ Root l') by (intros ->; by apply Hnr, Hsub).
      assert (s2 ≠ Root l') by (intros ->; by apply Hnr, Hsub).
      rewrite !lists_upd_ne; [done|congruence..].
    + intros b Hb Hlt'.
      pose proof (cycle_not_elem l xs b Hb) as Hnr.
      assert (mark ≠ Elem b) by (intros ->; by apply Hnr, Hsub).
      assert (s2 ≠ Elem b) by (intros ->; by apply Hnr, Hsub).
      assert (a ≠ b) by (intros ->; apply Hb; by eapply list_elem_of_lookup_2).
      rewrite !elems_upd_ne; [done|congruence..].
    + intros q [e He]. by look_crush.
Qed.

Lemma kept_lists h h' l :
  elems h' = elems h →
  length (lists h') = length (lists h) →
  (∀ l', l' ≠ l → lists h' !! l' = lists h !! l') →
  valueOf h' (Root l) = valueOf h (Root l) →
  kept l h h'.
Proof.
  intros He Hlen Hl Hv. unfold kept. split_and!; try done.
  - by rewrite He.
  - intros l' ys Hne Hy. apply (ring_frame_lists h); [done|by apply Hl|].
    intros. by rewrite He.
  - intros l' Hne Hz. unfold zero_value in *. by rewrite Hl.
  - intros q _. destruct q as [|l'|a]; [done| |].
    + destruct (decide (l' = l)) as [->|Hne]; [done|].
      unfold valueOf. simpl. by rewrite Hl.
    + unfold valueOf. simpl. by rewrite He.
Qed.

Lemma Init_ring h l r :
  look h (Root l) = Some r → list_ r = None →
  ∃ h', Init l h = Ok l h' ∧ ring h' l [] ∧ elems h' = elems h ∧ kept l h h'.
Proof.
  intros Hr Hl.
  assert (is_Some (sizeOf h l)) as [n Hn].
  { unfold sizeOf. simpl in Hr. destruct (lists h !! l); [eauto|done]. }
  eexists. split; [|split; [|split]].
  - unfold Init. do 3 exec_step. reflexivity.
  - split; [|split; [|done]].
    + repeat split; try (by look_crush); try apply NoDup_nil_2; try apply Forall_nil_2.
    + rewrite sizeOf_upd_size, decide_True, !sizeOf_upd, Hn by done. done.
  - done.
  - apply kept_lists.
    + done.
    + by rewrite length_lists_upd_size, !length_lists_upd.
    + intros l' Hne. rewrite lists_upd_size_ne by done.
      rewrite !lists_upd_ne; [done|congruence..].
    + by look_crush.
Qed.

Lemma zero_value_look h l : zero_value h l → look h (Root l) = Some zero_Element.
Proof. unfold zero_value. simpl. by intros ->. Qed.

Lemma shape_root h l xs :
  shape h l xs → ∃ r, look h (Root l) = Some r ∧ list_ r = None ∧ next r ≠ Nil ∧ prev r ≠ Nil.
Proof.
  intros Hr. pose proof Hr as (Hp & _ & _ & Hl).
  destruct (shape_next h l xs 0 (Root l) Hr eq_refl) as (s & Hs & [Hn _]).
  assert (is_Some ((cycle l xs) !! length xs)) as [p Hpp].
  { apply lookup_lt_is_Some. unfold cycle. simpl. rewrite length_fmap. lia. }
  destruct (shape_next h l xs (length xs) p Hr Hpp) as (s' & Hs' & [_ Hpv]).
  assert (s' = Root l) as ->.
  { rewrite lookup_app_r in Hs'; [|unfold cycle; simpl; rewrite length_fmap; lia].
    replace (S (length xs) - length (cycle l xs))%nat with 0%nat in Hs'; [by injection Hs'|].
    unfold cycle. simpl. rewrite length_fmap. lia. }
  assert (s ≠ Nil) as HsN.
  { intros ->. apply elem_of_cycle_snoc, elem_of_cycle in Hs as [?|(? & ? & _)]; done. }
  assert (p ≠ Nil) as HpN.
  { intros ->. apply list_elem_of_lookup_2, elem_of_cycle in Hpp as [?|(? & ? & _)]; done. }
  unfold listOf, nextOf, prevOf in *. destruct (look h (Root l)) as [r|] eqn:E; [|done].
  exists r. simpl in Hn, Hpv, Hl. by simplify_eq.
Qed.

Lemma repr_root h l xs :
  repr h l xs → ∃ r, look h (Root l) = Some r ∧ list_ r = None.
Proof.
  intros [[Hr _]|[Hz _]].
  - destruct (shape_root _ _ _ Hr) as (r & ? & ? & _). eauto.
  - exists zero_Element. split; [by apply zero_value_look|done].
Qed.

Lemma lazyInit_ring h l xs : ring h l xs → lazyInit l h = Ok tt h.
Proof.
  intros [Hr _]. destruct (shape_root _ _ _ Hr) as (r & Hl & _ & Hn & _).
  unfold lazyInit. rewrite (bind_load _ _ _ _ Hl). by rewrite decide_False.
Qed.

Lemma lazyInit_zero h l :
  zero_value h l → lazyInit l h = bind (Init l) (λ _, ret tt) h.
Proof.
  intros Hz. unfold lazyInit.
  rewrite (bind_load _ _ _ _ (zero_value_look _ _ Hz)). done.
Qed.

Lemma lazyInit_repr h l xs :
  repr h l xs →
  ∃ h', lazyInit l h = Ok tt h' ∧ ring h' l xs ∧ elems h' = elems h ∧ kept l h h'.
Proof.
  intros [Hr|[Hz ->]].
  - exists h. split; [by eapply lazyInit_ring|]. split; [done|]. split; [done|apply kept_refl].
  - destruct (Init_ring h l zero_Element) as (h' & HI & Hr & He & Hk);
      [by apply zero_value_look|done|].
    exists h'. rewrite lazyInit_zero by done. unfold bind. rewrite HI. done.
Qed.

Lemma alloc_list_spec h :
  ∃ h', alloc_list h = Ok (length (lists h)) h' ∧
        zero_value h' (length (lists h)) ∧
        length (lists h') = S (length (lists h)) ∧
        elems h' = elems h ∧
        (∀ l ys, repr h l ys → repr h' l ys) ∧
        (∀ q, is_Some (look h q) → look h' q = look h q).
Proof.
  eexists. split; [reflexivity|]. repeat split.
  - unfold zero_value. simpl. by rewrite list_lookup_middle.
  - simpl. rewrite length_app. simpl. lia.
  - intros l ys Hy. apply (repr_frame h); [done| |done].
    destruct (repr_root _ _ _ Hy) as (r & Hr & _).
    apply look_Root_lt in Hr. simpl. by rewrite lookup_app_l.
  - intros q [e He]. destruct q as [|l|a]; [done| |done].
    apply look_Root_lt in He. simpl. by rewrite lookup_app_l.
Qed.

Lemma New_spec h :
  ∃ h', New h = Ok (length (lists h)) h' ∧
        ring h' (length (lists h)) [] ∧
        length (lists h') = S (length (lists h)) ∧
        elems h' = elems h ∧
        (∀ l ys, repr h l ys → repr h' l ys).
Proof.
  destruct (alloc_list_spec h) as (h1 & H1 & Hz & Hlen & He & Hf & _).
  destruct (Init_ring h1 (length (lists h)) zero_Element) as (h' & HI & Hr & He' & Hk);
    [by apply zero_value_look|done|].
  exists h'. unfold New, bind. rewrite H1, HI. repeat split; try apply Hr.
  - destruct Hk as (-> & _). done.
  - congruence.
  - intros l ys Hy. apply (kept_repr _ _ _ _ _ Hk); [|by apply Hf].
    destruct (repr_root _ _ _ Hy) as (r & Hrr & _).
    apply look_Root_lt in Hrr. lia.
Qed.

(** ** Observing a list *)

Lemma Len_ring h l xs : ring h l xs → Len l h = Ok (Z.of_nat (length xs)) h.
Proof.
  intros (_ & Hsz & _). unfold Len, get_size, sizeOf in *.
  destruct (lists h !! l); simpl in *; [|done]. by injection Hsz as ->.
Qed.

Lemma Len_zero h l : zero_value h l → Len l h = Ok 0 h.
Proof. unfold zero_value, Len, get_size. by intros ->. Qed.

Lemma Front_ring h l xs :
  ring h l xs → Front l h = Ok (from_option Elem Nil (head xs)) h.
Proof.
  intros (Hr & Hsz & _). unfold Front. erewrite bind_get_size by done.
  destruct xs as [|a xs]; [done|]. rewrite decide_False by (simpl; lia).
  destruct (shape_next h l (a :: xs) 0 (Root l) Hr eq_refl) as (s & Hs & [Hn _]).
  simpl in Hs. injection Hs as <-.
  unfold nextOf in Hn. destruct (look h (Root l)) as [r|] eqn:E; [|done].
  rewrite (bind_load _ _ _ _ E). simpl in Hn. by injection Hn as ->.
Qed.

Lemma cycle_lookup_last l xs :
  cycle l xs !! length xs = Some (from_option Elem (Root l) (last xs)).
Proof.
  destruct xs as [|a xs] using rev_ind; [done|].
  rewrite last_snoc. simpl.
  rewrite length_app. simpl.
  replace (length xs + 1)%nat with (S (length xs)) by lia.
  rewrite cycle_lookup_S. by rewrite list_lookup_middle.
Qed.

Lemma Back_ring h l xs :
  ring h l xs → Back l h = Ok (from_option Elem Nil (last xs)) h.
Proof.
  intros (Hr & Hsz & _). unfold Back. erewrite bind_get_size by done.
  destruct (decide (Z.of_nat (length xs) = 0)) as [E0|E0].
  { destruct xs; [done|simpl in E0; lia]. }
  destruct (shape_next h l xs (length xs) _ Hr (cycle_lookup_last l xs))
    as (s & Hs & [_ Hp]).
  assert (s = Root l) as ->.
  { rewrite lookup_app_r in Hs; [|unfold cycle; simpl; rewrite length_fmap; lia].
    replace (S (length xs) - length (cycle l xs))%nat with 0%nat in Hs; [by injection Hs|].
    unfold cycle. simpl. rewrite length_fmap. lia. }
  unfold prevOf in Hp. destruct (look h (Root l)) as [r|] eqn:E; [|done].
  rewrite (bind_load _ _ _ _ E). simpl in Hp. injection Hp as ->.
  destruct (last xs) eqn:El; [done|].
  apply last_None in El as ->. done.
Qed.

Lemma Front_zero h l : zero_value h l → Front l h = Ok Nil h.
Proof. intros Hz. unfold Front. unfold bind. fold (Len l). by rewrite Len_zero. Qed.

Lemma Back_zero h l : zero_value h l → Back l h = Ok Nil h.
Proof. intros Hz. unfold Back. unfold bind. fold (Len l). by rewrite Len_zero. Qed.

Lemma Next_ring h l xs j a :
  shape h l xs → xs !! j = Some a →
  Next (Elem a) h = Ok (from_option Elem Nil (xs !! S j)) h.
Proof.
  intros Hr Hj.
  destruct (shape_elem _ _ _ _ _ Hr Hj) as (el & Hel & Hl & _ & Hs & _).
  unfold Next. rewrite (bind_load _ _ _ _ Hel), Hl.
  destruct (xs !! S j) as [b|] eqn:E.
  - rewrite lookup_app_l_Some with (x := Elem b) in Hs.
    2:{ by rewrite cycle_lookup_S, E. }
    injection Hs as <-. by rewrite decide_False.
  - apply lookup_ge_None in E. apply lookup_lt_Some in Hj.
    rewrite lookup_app_r in Hs; [|unfold cycle; simpl; rewrite length_fmap; lia].
    replace (S (S j) - length (cycle l xs))%nat with 0%nat in Hs.
    2:{ unfold cycle. simpl. rewrite length_fmap. lia. }
    injection Hs as <-. by rewrite decide_True.
Qed.

Lemma Prev_ring h l xs j a :
  shape h l xs → xs !! j = Some a →
  Prev (Elem a) h =
  Ok (match j with O => Nil | S j' => from_option Elem Nil (xs !! j') end) h.
Proof.
  intros Hr Hj.
  destruct (shape_elem _ _ _ _ _ Hr Hj) as (el & Hel & Hl & Hp & _).
  unfold Prev. rewrite (bind_load _ _ _ _ Hel), Hl.
  destruct j as [|j'].
  - simpl in Hp. injection Hp as <-. by rewrite decide_True.
  - rewrite cycle_lookup_S in Hp. destruct (xs !! j') as [b|]; [|done].
    simpl in Hp. injection Hp as <-. by rewrite decide_False.
Qed.

Lemma walk_Next_ring h l xs fuel j :
  shape h l xs → (length xs ≤ j + fuel)%nat →
  walk Next fuel (from_option Elem Nil (xs !! j)) h = Ok (Some (Elem <$> drop j xs)) h.
Proof.
  intros Hr. revert j. induction fuel as [|fuel IH]; intros j Hf.
  - rewrite lookup_ge_None_2 by lia. by rewrite drop_ge by lia.
  - destruct (xs !! j) as [a|] eqn:E.
    + simpl. unfold bind. rewrite (Next_ring _ _ _ _ _ Hr E).
      rewrite IH by lia. by rewrite (drop_S _ _ _ E).
    + apply lookup_ge_None in E. by rewrite drop_ge by lia.
Qed.

Lemma walk_Prev_ring h l xs fuel j a :
  shape h l xs → xs !! j = Some a → (j < fuel)%nat →
  walk Prev fuel (Elem a) h = Ok (Some (Elem <$> reverse (take (S j) xs))) h.
Proof.
  intros Hr. revert fuel a. induction j as [|j IH]; intros fuel a Hj Hf.
  - destruct fuel as [|fuel]; [lia|]. simpl. unfold bind.
    rewrite (Prev_ring _ _ _ _ _ Hr Hj).
    destruct fuel; simpl; destruct xs; by simplify_eq/=.
  - destruct fuel as [|fuel]; [lia|]. simpl. unfold bind.
    rewrite (Prev_ring _ _ _ _ _ Hr Hj).
    destruct (xs !! j) as [b|] eqn:E.
    2:{ apply lookup_ge_None in E. apply lookup_lt_Some in Hj. lia. }
    simpl. rewrite (IH fuel b) by (done || lia).
    rewrite (take_S_r _ (S j) a) by done. by rewrite reverse_snoc.
Qed.

Lemma forward_ring h l xs fuel :
  ring h l xs → (length xs ≤ fuel)%nat →
  forward fuel l h = Ok (Some (Elem <$> xs)) h.
Proof.
  intros Hr Hf. unfold forward, bind. rewrite (Front_ring _ _ _ Hr).
  rewrite head_lookup. destruct Hr as [Hr _].
  rewrite (walk_Next_ring h l xs fuel 0) by (done || lia). done.
Qed.

Lemma backward_ring h l xs fuel :
  ring h l xs → (length xs ≤ fuel)%nat →
  backward fuel l h = Ok (Some (Elem <$> reverse xs)) h.
Proof.
  intros Hr Hf. unfold backward, bind. rewrite (Back_ring _ _ _ Hr).
  destruct Hr as [Hr _].
  destruct (last xs) as [a|] eqn:E.
  - rewrite last_lookup in E. simpl.
    rewrite (walk_Prev_ring h l xs fuel _ a Hr E).
    + apply lookup_lt_Some in E.
      replace (S (pred (length xs))) with (length xs) by lia.
      by rewrite firstn_all.
    + apply lookup_lt_Some in E. lia.
  - apply last_None in E as ->. by destruct fuel.
Qed.

Lemma forward_repr h l xs fuel :
  repr h l xs → (length xs ≤ fuel)%nat →
  forward fuel l h = Ok (Some (Elem <$> xs)) h.
Proof.
  intros [Hr|[Hz ->]] Hf; [by apply forward_ring|].
  unfold forward, bind. rewrite Front_zero by done. by destruct fuel.
Qed.

Lemma backward_repr h l xs fuel :
  repr h l xs → (length xs ≤ fuel)%nat →
  backward fuel l h = Ok (Some (Elem <$> reverse xs)) h.
Proof.
  intros [Hr|[Hz ->]] Hf; [by apply backward_ring|].
  unfold backward, bind. rewrite Back_zero by done. by destruct fuel.
Qed.

(** ** Pushing *)

Lemma shape_root_links h l xs :
  shape h l xs →
  ∃ r, look h (Root l) = Some r ∧
       cycle l xs !! length xs = Some (prev r) ∧
       next r = from_option Elem (Root l) (head xs).
Proof.
  intros Hr.
  destruct (shape_next h l xs 0 (Root l) Hr eq_refl) as (s & Hs & [Hn _]).
  destruct (shape_next h l xs (length xs) _ Hr (cycle_lookup_last l xs))
    as (s' & Hs' & [_ Hp]).
  assert (s' = Root l) as ->.
  { rewrite lookup_app_r in Hs'; [|unfold cycle; simpl; rewrite length_fmap; lia].
    replace (S (length xs) - length (cycle l xs))%nat with 0%nat in Hs'; [by injection Hs'|].
    unfold cycle. simpl. rewrite length_fmap. lia. }
  unfold nextOf, prevOf in *. destruct (look h (Root l)) as [r|] eqn:E; [|done].
  exists r. simpl in Hn, Hp. injection Hn as Hn. injection Hp as Hp.
  split; [done|]. split.
  - rewrite Hp. apply cycle_lookup_last.
  - rewrite Hn. destruct xs; simpl in Hs; by injection Hs.
Qed.

Lemma PushBack_repr h l xs v :
  repr h l xs → Z.of_nat (length xs) + 1 < 2 ^ 63 →
  ∃ h', PushBack l v h = Ok (Elem (length (elems h))) h' ∧
        ring h' l (xs ++ [length (elems h)]) ∧
        valueOf h' (Elem (length (elems h))) = Some v ∧
        length (elems h') = S (length (elems h)) ∧
        kept l h h'.
Proof.
  intros Hx Hlt.
  destruct (lazyInit_repr _ _ _ Hx) as (h1 & HL & Hr1 & He1 & Hk1).
  destruct (shape_root_links h1 l xs) as (r & Hr & Hp & _); [apply Hr1|].
  destruct (insertValueAfter_ring h1 l xs (length xs) (prev r) v Hr1 Hp Hlt)
    as (h' & HI & Hr' & Hv & Hlen & Hk).
  rewrite take_ge, drop_ge in Hr' by lia. rewrite He1 in *.
  exists h'. split.
  { unfold PushBack. rewrite (bind_ok _ _ _ _ _ HL).
    by rewrite (bind_load _ _ _ _ Hr). }
  split_and!; try done. by eapply kept_trans.
Qed.

Lemma PushFront_repr h l xs v :
  repr h l xs → Z.of_nat (length xs) + 1 < 2 ^ 63 →
  ∃ h', PushFront l v h = Ok (Elem (length (elems h))) h' ∧
        ring h' l (length (elems h) :: xs) ∧
        valueOf h' (Elem (length (elems h))) = Some v ∧
        length (elems h') = S (length (elems h)) ∧
        kept l h h'.
Proof.
  intros Hx Hlt.
  destruct (lazyInit_repr _ _ _ Hx) as (h1 & HL & Hr1 & He1 & Hk1).
  destruct (insertValueAfter_ring h1 l xs 0 (Root l) v Hr1 eq_refl Hlt)
    as (h' & HI & Hr' & Hv & Hlen & Hk).
  rewrite take_0, drop_0 in Hr'. rewrite He1 in *.
  exists h'. split.
  { unfold PushFront. by rewrite (bind_ok _ _ _ _ _ HL). }
  split_and!; try done. by eapply kept_trans.
Qed.

Lemma values_kept l h h' ys :
  kept l h h' → (∀ a, a ∈ ys → is_Some (look h (Elem a))) →
  values h' ys = values h ys.
Proof.
  intros (_ & _ & _ & _ & Hv) Hy. unfold values. apply list_fmap_ext.
  intros i a Ha. apply Hv, Hy. by eapply list_elem_of_lookup_2.
Qed.

Lemma ring_valid h l xs a : ring h l xs → a ∈ xs → is_Some (look h (Elem a)).
Proof.
  intros [Hr _] Ha. eapply shape_valid; [done|]. apply elem_of_cycle. eauto.
Qed.

(** The other list as seen while list [l] grows: unchanged when it is
    another list, grown by the same elements when it is [l] itself. *)
Lemma ring_other_after h h' l o xs' ys :
  ring h o ys → ring h' l xs' → kept l h h' →
  ring h' o (if decide (o = l) then xs' else ys).
Proof.
  intros Hy Hx' (_ & _ & Hk & _). destruct (decide (o = l)) as [->|Hne]; eauto.
Qed.

Lemma pushBackLoop_ring l o rest :
  ∀ h xs pre ex e,
  ring h l xs → ring h o (pre ++ rest ++ ex) →
  (∀ a, head rest = Some a → e = Elem a) →
  Z.of_nat (length xs + length rest) < 2 ^ 63 →
  ∃ h' news, pushBackLoop l (length rest) e h = Ok tt h' ∧
    ring h' l (xs ++ news) ∧
    news = seq (length (elems h)) (length rest) ∧
    values h' news = values h rest ∧
    length (elems h') = (length (elems h) + length rest)%nat ∧
    kept l h h'.
Proof.
  induction rest as [|a rest IH]; intros h xs pre ex e Hx Hy He Hlt.
  { exists h, []. rewrite app_nil_r. split_and!; try done; try (simpl; lia); apply kept_refl. }
  rewrite (He a eq_refl). clear e He.
  assert (a ∈ pre ++ (a :: rest) ++ ex) as Ha by set_solver.
  destruct (ring_valid _ _ _ _ Hy Ha) as [el Hel].
  destruct (shape_root_links h l xs) as (r & Hr & Hp & _); [apply Hx|].
  destruct (insertValueAfter_ring h l xs (length xs) (prev r) (Value el) Hx Hp)
    as (h1 & HI & Hx1 & Hv & Hlen & Hk).
  { simpl in Hlt. lia. }
  rewrite take_ge, drop_ge in Hx1 by lia.
  set (n := length (elems h)) in *.
  pose proof (ring_other_after _ _ _ _ _ _ Hy Hx1 Hk) as Hy1.
  set (ex' := if decide (o = l) then ex ++ [n] else ex).
  assert (ring h1 o ((pre ++ [a]) ++ rest ++ ex')) as Hy1'.
  { unfold ex'. destruct (decide (o = l)) as [->|Hne].
    - rewrite (ring_unique _ _ _ _ Hx Hy) in Hy1.
      by rewrite <- !app_assoc in *.
    - by rewrite <- !app_assoc in *. }
  assert (Next (Elem a) h1 = Ok (from_option Elem Nil (head (rest ++ ex'))) h1) as HN.
  { rewrite (Next_ring h1 o ((pre ++ [a]) ++ rest ++ ex') (length pre) a); [|apply Hy1'|].
    - do 2 f_equal. rewrite <- app_assoc. simpl.
      rewrite (lookup_app_r pre) by lia.
      replace (S (length pre) - length pre)%nat with 1%nat by lia. simpl.
      by rewrite head_lookup.
    - rewrite <- app_assoc. simpl. by rewrite list_lookup_middle. }
  destruct (IH h1 (xs ++ [n]) (pre ++ [a]) ex' (from_option Elem Nil (head (rest ++ ex'))))
    as (h' & news & HL & Hx' & Hnews & Hvals & Hlen' & Hk'); try done.
  { intros b Hb. destruct rest; simpl in *; by simplify_eq. }
  { rewrite length_app. simpl in *. lia. }
  exists h', (n :: news). split_and!.
  - simpl. rewrite (bind_load _ _ _ _ Hel), (bind_load _ _ _ _ Hr).
    rewrite (bind_ok _ _ _ _ _ HI), (bind_ok _ _ _ _ _ HN). done.
  - by rewrite <- app_assoc in Hx'.
  - rewrite Hnews, Hlen. done.
  - unfold values in *. rewrite !fmap_cons. f_equal.
    + destruct Hk' as (_ & _ & _ & _ & Hk'). rewrite Hk', Hv.
      * unfold valueOf. by rewrite Hel.
      * unfold valueOf in Hv. destruct (look h1 (Elem n)); [eauto|done].
    + rewrite Hvals. apply (values_kept l); [done|].
      intros b Hb. eapply ring_valid; [exact Hy|]. set_solver.
  - rewrite Hlen', Hlen. simpl. lia.
  - by eapply kept_trans.
Qed.

Lemma pushFrontLoop_ring l o rest :
  ∀ h xs ex post e,
  ring h l xs → ring h o (ex ++ rest ++ post) →
  (∀ a, last rest = Some a → e = Elem a) →
  Z.of_nat (length xs + length rest) < 2 ^ 63 →
  ∃ h' news, pushFrontLoop l (length rest) e h = Ok tt h' ∧
    ring h' l (news ++ xs) ∧
    length news = length rest ∧
    values h' news = values h rest ∧
    length (elems h') = (length (elems h) + length rest)%nat ∧
    kept l h h'.
Proof.
  induction rest as [|a rest IH] using rev_ind; intros h xs ex post e Hx Hy He Hlt.
  { exists h, []. split_and!; try done; try (simpl; lia); apply kept_refl. }
  rewrite (He a (last_snoc _ _)). clear e He.
  assert (a ∈ ex ++ (rest ++ [a]) ++ post) as Ha by set_solver.
  destruct (ring_valid _ _ _ _ Hy Ha) as [el Hel].
  rewrite length_app in Hlt |- *. simpl in Hlt |- *.
  replace (length rest + 1)%nat with (S (length rest)) by lia.
  destruct (insertValueAfter_ring h l xs 0 (Root l) (Value el) Hx eq_refl)
    as (h1 & HI & Hx1 & Hv & Hlen & Hk); [lia|].
  rewrite take_0, drop_0 in Hx1.
  set (n := length (elems h)) in *.
  pose proof (ring_other_after _ _ _ _ _ _ Hy Hx1 Hk) as Hy1.
  set (ex' := if decide (o = l) then n :: ex else ex).
  assert (ring h1 o (ex' ++ rest ++ a :: post)) as Hy1'.
  { unfold ex'. destruct (decide (o = l)) as [->|Hne].
    - rewrite (ring_unique _ _ _ _ Hx Hy) in Hy1.
      by rewrite <- !app_assoc in *.
    - by rewrite <- !app_assoc in *. }
  assert (Prev (Elem a) h1 = Ok (from_option Elem Nil (last (ex' ++ rest))) h1) as HN.
  { rewrite (Prev_ring h1 o (ex' ++ rest ++ a :: post) (length (ex' ++ rest)) a); [|apply Hy1'|].
    - do 2 f_equal. rewrite last_lookup.
      destruct (length (ex' ++ rest)) as [|k] eqn:Ek; simpl.
      + by destruct (ex' ++ rest).
      + rewrite app_assoc. rewrite lookup_app_l by lia. done.
    - rewrite app_assoc. by rewrite list_lookup_middle. }
  destruct (IH h1 (n :: xs) ex' (a :: post) (from_option Elem Nil (last (ex' ++ rest))))
    as (h' & news & HL & Hx' & Hnews & Hvals & Hlen' & Hk'); try done.
  { intros b Hb. rewrite last_app, Hb. done. }
  { simpl. lia. }
  exists h', (news ++ [n]). split_and!.
  - simpl. rewrite (bind_load _ _ _ _ Hel).
    rewrite (bind_ok _ _ _ _ _ HI), (bind_ok _ _ _ _ _ HN). done.
  - by rewrite <- app_assoc.
  - rewrite length_app. simpl. lia.
  - unfold values in *. rewrite !fmap_app. f_equal.
    + rewrite Hvals. apply (values_kept l); [done|].
      intros b Hb. eapply ring_valid; [exact Hy|]. set_solver.
    + simpl. f_equal. destruct Hk' as (_ & _ & _ & _ & Hk'). rewrite Hk', Hv.
      * unfold valueOf. by rewrite Hel.
      * unfold valueOf in Hv. destruct (look h1 (Elem n)); [eauto|done].
  - rewrite Hlen', Hlen. simpl. lia.
  - by eapply kept_trans.
Qed.

Lemma repr_valid h l xs a : repr h l xs → a ∈ xs → is_Some (look h (Elem a)).
Proof. intros [Hr|[_ ->]] Ha; [by eapply ring_valid | set_solver]. Qed.

Lemma repr_after_lazyInit h h1 l o xs ys :
  repr h l xs → repr h o ys → ring h1 l xs → kept l h h1 → repr h1 o ys.
Proof.
  intros Hx Hy Hx1 Hk. destruct (decide (o = l)) as [->|Hne].
  - rewrite (repr_unique _ _ _ _ Hy Hx). by left.
  - by eapply kept_repr.
Qed.

Lemma PushBackList_repr h l o xs ys :
  repr h l xs → repr h o ys →
  Z.of_nat (length xs + length ys) < 2 ^ 63 →
  ∃ h' news, PushBackList l o h = Ok tt h' ∧
    ring h' l (xs ++ news) ∧
    news = seq (length (elems h)) (length ys) ∧
    values h' news = values h ys ∧
    length (elems h') = (length (elems h) + length ys)%nat ∧
    kept l h h'.
Proof.
  intros Hx Hy Hlt.
  destruct (lazyInit_repr _ _ _ Hx) as (h1 & HL & Hx1 & He1 & Hk1).
  pose proof (repr_after_lazyInit _ _ _ _ _ _ Hx Hy Hx1 Hk1) as Hy1.
  unfold PushBackList. rewrite (bind_ok _ _ _ _ _ HL).
  destruct Hy1 as [Hy1|[Hz ->]].
  - rewrite (bind_ok _ _ _ _ _ (Front_ring _ _ _ Hy1)).
    rewrite (bind_ok _ _ _ _ _ (Len_ring _ _ _ Hy1)). rewrite Nat2Z.id.
    destruct (pushBackLoop_ring l o ys h1 xs [] [] (from_option Elem Nil (head ys)))
      as (h' & news & HP & Hx' & Hnews & Hvals & Hlen & Hk); try done.
    { by rewrite app_nil_r. }
    { intros a ->. done. }
    exists h', news. rewrite He1 in *. split_and!; try done.
    + rewrite Hvals. apply (values_kept l); [done|].
      intros a Ha. by eapply repr_valid.
    + by eapply kept_trans.
  - rewrite (bind_ok _ _ _ _ _ (Front_zero _ _ Hz)).
    rewrite (bind_ok _ _ _ _ _ (Len_zero _ _ Hz)). simpl.
    exists h1, []. rewrite app_nil_r, He1. split_and!; try done; simpl; lia.
Qed.

Lemma PushFrontList_repr h l o xs ys :
  repr h l xs → repr h o ys →
  Z.of_nat (length xs + length ys) < 2 ^ 63 →
  ∃ h' news, PushFrontList l o h = Ok tt h' ∧
    ring h' l (news ++ xs) ∧
    length news = length ys ∧
    values h' news = values h ys ∧
    length (elems h') = (length (elems h) + length ys)%nat ∧
    kept l h h'.
Proof.
  intros Hx Hy Hlt.
  destruct (lazyInit_repr _ _ _ Hx) as (h1 & HL & Hx1 & He1 & Hk1).
  pose proof (repr_after_lazyInit _ _ _ _ _ _ Hx Hy Hx1 Hk1) as Hy1.
  unfold PushFrontList. rewrite (bind_ok _ _ _ _ _ HL).
  destruct Hy1 as [Hy1|[Hz ->]].
  - rewrite (bind_ok _ _ _ _ _ (Back_ring _ _ _ Hy1)).
    rewrite (bind_ok _ _ _ _ _ (Len_ring _ _ _ Hy1)). rewrite Nat2Z.id.
    destruct (pushFrontLoop_ring l o ys h1 xs [] [] (from_option Elem Nil (last ys)))
      as (h' & news & HP & Hx' & Hnews & Hvals & Hlen & Hk); try done.
    { by rewrite app_nil_r. }
    { intros a ->. done. }
    exists h', news. rewrite He1 in *. split_and!; try done.
    + rewrite Hvals. apply (values_kept l); [done|].
      intros a Ha. by eapply repr_valid.
    + by eapply kept_trans.
  - rewrite (bind_ok _ _ _ _ _ (Back_zero _ _ Hz)).
    rewrite (bind_ok _ _ _ _ _ (Len_zero _ _ Hz)). simpl.
    exists h1, []. rewrite He1. split_and!; try done; simpl; lia.
Qed.

(** ** Moving *)

Lemma elem_of_cycle_delete l xs j a q :
  xs !! j = Some a → q ∈ cycle l xs → q ≠ Elem a → q ∈ cycle l (delete j xs).
Proof.
  intros Hj [->|(b & -> & Hb)]%elem_of_cycle Hne; apply elem_of_cycle; [eauto|].
  right. exists b. split; [done|].
  rewrite <- (take_drop_middle _ _ _ Hj) in Hb. rewrite delete_take_drop.
  set_solver.
Qed.

(** [moveAfter] for any [mark] of the same list, [e] itself included. *)
Lemma moveAfter_member h l xs j a mark :
  ring h l xs → xs !! j = Some a → mark ∈ cycle l xs →
  ∃ h' xs', moveAfter l (Elem a) mark h = Ok tt h' ∧
            ring h' l xs' ∧
            length (elems h') = length (elems h) ∧
            kept l h h'.
Proof.
  intros Hr Hj Hm. destruct (decide (mark = Elem a)) as [->|Hne].
  - exists h, xs. unfold moveAfter. rewrite decide_True by done.
    split_and!; try done; apply kept_refl.
  - pose proof (elem_of_cycle_delete _ _ _ _ _ Hj Hm Hne) as Hm'.
    apply list_elem_of_lookup in Hm' as [i Hi].
    destruct (moveAfter_ring _ _ _ _ _ _ _ Hr Hj Hi) as (h' & ? & ? & ? & ?).
    eauto 10.
Qed.

Lemma repr_length h l xs : repr h l xs → (length xs ≤ length (elems h))%nat.
Proof.
  intros [[Hr _]|[_ ->]]; [by eapply shape_length | simpl; lia].
Qed.

Lemma forward_invalid h l fuel : lists h !! l = None → forward fuel l h = Invalid.
Proof. intros E. unfold forward, bind, Front, bind, get_size. by rewrite E. Qed.

Lemma usable_look h e : usable h e = true → is_Some (look h e).
Proof. unfold usable. destruct (look h e); [eauto|done]. Qed.

Lemma usable_member h e el l :
  wf h → usable h e = true → look h e = Some el → list_ el = Some l →
  ∃ xs j a, ring h l xs ∧ e = Elem a ∧ xs !! j = Some a.
Proof.
  intros Hwf Hu Hel Hl. unfold usable in Hu. rewrite Hel, Hl in Hu.
  destruct (lists h !! l) as [L|] eqn:E.
  2:{ by rewrite forward_invalid in Hu. }
  apply lookup_lt_Some in E. destruct (Hwf l E) as [xs Hx].
  rewrite (forward_repr _ _ _ _ Hx (repr_length _ _ _ Hx)) in Hu.
  apply bool_decide_eq_true in Hu.
  apply list_elem_of_fmap in Hu as (a & -> & Ha).
  apply list_elem_of_lookup in Ha as Hj. destruct Hj as [j Hj].
  exists xs, j, a. split_and!; try done.
  destruct Hx as [?|[_ ->]]; [done|set_solver].
Qed.

Lemma wf_update h h' l xs' :
  wf h → (l < length (lists h))%nat → ring h' l xs' → kept l h h' → wf h'.
Proof.
  intros Hwf Hl Hx' Hk l0 Hl0. destruct (decide (l0 = l)) as [->|Hne].
  - exists xs'. by left.
  - destruct Hk as (Hlen & Hk'). rewrite Hlen in Hl0.
    destruct (Hwf l0 Hl0) as [ys Hy]. exists ys.
    eapply kept_repr; [|done..]. by split.
Qed.

Lemma small_bound h : small h = true → Z.of_nat (length (elems h)) < 2 ^ 62.
Proof. unfold small. by intros ?%bool_decide_eq_true. Qed.

Lemma pow_63 : 2 ^ 63 = 2 * 2 ^ 62.
Proof. reflexivity. Qed.

(** ** Every legal call keeps the heap well formed *)

Lemma ring_room h l xs :
  ring h l xs → small h = true → Z.of_nat (length xs) + 1 < 2 ^ 63.
Proof.
  intros [Hr _] Hs%small_bound. pose proof (shape_length _ _ _ Hr). rewrite pow_63. lia.
Qed.

Lemma InsertAfter_wf h l v mark :
  wf h → (l < length (lists h))%nat → usable h mark = true → small h = true →
  ∃ r h', InsertAfter l v mark h = Ok r h' ∧ wf h'.
Proof.
  intros Hwf Hl Hu Hs. destruct (usable_look _ _ Hu) as [el Hel].
  unfold InsertAfter. rewrite (bind_load _ _ _ _ Hel).
  destruct (decide (list_ el = Some l)) as [Hll|Hll]; [|by eauto].
  destruct (usable_member _ _ _ _ Hwf Hu Hel Hll) as (xs & j & a & Hx & -> & Hj).
  destruct (insertValueAfter_ring h l xs (S j) (Elem a) v Hx)
    as (h' & HI & Hx' & _ & _ & Hk).
  { by rewrite cycle_lookup_S, Hj. }
  { by eapply ring_room. }
  exists (Elem (length (elems h))), h'. split; [done|]. by eapply wf_update.
Qed.

Lemma InsertBefore_wf h l v mark :
  wf h → (l < length (lists h))%nat → usable h mark = true → small h = true →
  ∃ r h', InsertBefore l v mark h = Ok r h' ∧ wf h'.
Proof.
  intros Hwf Hl Hu Hs. destruct (usable_look _ _ Hu) as [el Hel].
  unfold InsertBefore. rewrite (bind_load _ _ _ _ Hel).
  destruct (decide (list_ el = Some l)) as [Hll|Hll]; [|by eauto].
  rewrite (bind_load _ _ _ _ Hel).
  destruct (usable_member _ _ _ _ Hwf Hu Hel Hll) as (xs & j & a & Hx & -> & Hj).
  destruct (shape_elem h l xs j a) as (el' & Hel' & _ & Hp & _); [apply Hx|done|].
  assert (el' = el) as -> by congruence.
  destruct (insertValueAfter_ring h l xs j (prev el) v Hx Hp)
    as (h' & HI & Hx' & _ & _ & Hk).
  { by eapply ring_room. }
  exists (Elem (length (elems h))), h'. split; [done|]. by eapply wf_update.
Qed.

Lemma Remove_wf h l e :
  wf h → (l < length (lists h))%nat → usable h e = true →
  ∃ r h', Remove l e h = Ok r h' ∧ wf h'.
Proof.
  intros Hwf Hl Hu. destruct (usable_look _ _ Hu) as [el Hel].
  destruct (decide (list_ el = Some l)) as [Hll|Hll].
  - destruct (usable_member _ _ _ _ Hwf Hu Hel Hll) as (xs & j & a & Hx & -> & Hj).
    destruct (Remove_ring _ _ _ _ _ Hx Hj) as (h' & v & HR & _ & Hx' & _ & _ & _ & Hk).
    exists v, h'. split; [done|]. by eapply wf_update.
  - unfold Remove. rewrite (bind_load _ _ _ _ Hel). rewrite decide_False by done.
    by eauto.
Qed.

Lemma MoveAfter_wf h l e mark :
  wf h → (l < length (lists h))%nat → usable h e = true → usable h mark = true →
  ∃ h', MoveAfter l e mark h = Ok tt h' ∧ wf h'.
Proof.
  intros Hwf Hl Hu Hum. destruct (usable_look _ _ Hu) as [el Hel].
  destruct (usable_look _ _ Hum) as [m Hm].
  unfold MoveAfter. rewrite (bind_load _ _ _ _ Hel).
  destruct (decide (list_ el = Some l)) as [Hll|Hll]; [|by eauto].
  rewrite (bind_load _ _ _ _ Hm).
  destruct (decide (list_ m = Some l)) as [Hml|Hml]; [|by eauto].
  destruct (decide (e = mark)) as [E|E]; [by eauto|].
  destruct (usable_member _ _ _ _ Hwf Hu Hel Hll) as (xs & j & a & Hx & -> & Hj).
  destruct (usable_member _ _ _ _ Hwf Hum Hm Hml) as (xs2 & k & b & Hx2 & -> & Hk).
  rewrite <- (ring_unique _ _ _ _ Hx Hx2) in Hk.
  destruct (moveAfter_member h l xs j a (Elem b) Hx Hj) as (h' & xs' & HM & Hx' & _ & Hkept).
  { apply elem_of_cycle. right. exists b. split; [done|]. by eapply list_elem_of_lookup_2. }
  exists h'. split; [done|]. by eapply wf_update.
Qed.

Lemma MoveBefore_wf h l e mark :
  wf h → (l < length (lists h))%nat → usable h e = true → usable h mark = true →
  ∃ h', MoveBefore l e mark h = Ok tt h' ∧ wf h'.
Proof.
  intros Hwf Hl Hu Hum. destruct (usable_look _ _ Hu) as [el Hel].
  destruct (usable_look _ _ Hum) as [m Hm].
  unfold MoveBefore. rewrite (bind_load _ _ _ _ Hel).
  destruct (decide (list_ el = Some l)) as [Hll|Hll]; [|by eauto].
  rewrite (bind_load _ _ _ _ Hm).
  destruct (decide (list_ m = Some l)) as [Hml|Hml]; [|by eauto].
  destruct (decide (e = mark)) as [E|E]; [by eauto|].
  rewrite (bind_load _ _ _ _ Hm).
  destruct (usable_member _ _ _ _ Hwf Hu Hel Hll) as (xs & j & a & Hx & -> & Hj).
  destruct (usable_member _ _ _ _ Hwf Hum Hm Hml) as (xs2 & k & b & Hx2 & -> & Hk).
  rewrite <- (ring_unique _ _ _ _ Hx Hx2) in Hk.
  destruct (shape_elem h l xs k b) as (m' & Hm' & _ & Hp & _); [apply Hx|done|].
  assert (m' = m) as -> by congruence.
  destruct (moveAfter_member h l xs j a (prev m) Hx Hj) as (h' & xs' & HM & Hx' & _ & Hkept).
  { by eapply list_elem_of_lookup_2. }
  exists h'. split; [done|]. by eapply wf_update.
Qed.

Lemma MoveToBack_wf h l e :
  wf h → (l < length (lists h))%nat → usable h e = true →
  ∃ h', MoveToBack l e h = Ok tt h' ∧ wf h'.
Proof.
  intros Hwf Hl Hu. destruct (usable_look _ _ Hu) as [el Hel].
  unfold MoveToBack. rewrite (bind_load _ _ _ _ Hel).
  destruct (decide (list_ el = Some l)) as [Hll|Hll]; [|by eauto].
  destruct (usable_member _ _ _ _ Hwf Hu Hel Hll) as (xs & j & a & Hx & -> & Hj).
  destruct (shape_root_links h l xs) as (r & Hr & Hp & _); [apply Hx|].
  rewrite (bind_load _ _ _ _ Hr).
  destruct (decide (prev r = Elem a)) as [E|E]; [by eauto|].
  rewrite (bind_load _ _ _ _ Hr).
  destruct (moveAfter_member h l xs j a (prev r) Hx Hj) as (h' & xs' & HM & Hx' & _ & Hkept).
  { by eapply list_elem_of_lookup_2. }
  exists h'. split; [done|]. by eapply wf_update.
Qed.

Lemma MoveToFront_wf h l e :
  wf h → (l < length (lists h))%nat → usable h e = true →
  ∃ h', MoveToFront l e h = Ok tt h' ∧ wf h'.
Proof.
  intros Hwf Hl Hu. destruct (usable_look _ _ Hu) as [el Hel].
  unfold MoveToFront. rewrite (bind_load _ _ _ _ Hel).
  destruct (decide (list_ el = Some l)) as [Hll|Hll]; [|by eauto].
  destruct (usable_member _ _ _ _ Hwf Hu Hel Hll) as (xs & j & a & Hx & -> & Hj).
  destruct (shape_root_links h l xs) as (r & Hr & _); [apply Hx|].
  rewrite (bind_load _ _ _ _ Hr).
  destruct (decide (next r = Elem a)) as [E|E]; [by eauto|].
  destruct (moveAfter_member h l xs j a (Root l) Hx Hj) as (h' & xs' & HM & Hx' & _ & Hkept).
  { apply elem_of_cycle. eauto. }
  exists h'. split; [done|]. by eapply wf_update.
Qed.

Lemma exec_wf h o :
  wf h → legal h o = true → ∃ h', exec o h = Ok tt h' ∧ wf h'.
Proof.
  intros Hwf Hlegal. unfold legal in Hlegal.
  apply andb_prop in Hlegal as [[Hs Hls]%andb_prop Hhs].
  assert (∀ l, l ∈ op_lists o → (l < length (lists h))%nat) as Hl.
  { intros l Hin. rewrite forallb_forall in Hls.
    apply list_elem_of_In in Hin. by apply Hls, bool_decide_eq_true in Hin. }
  assert (∀ e, e ∈ op_handles o → usable h e = true) as Hu.
  { intros e Hin. rewrite forallb_forall in Hhs.
    apply list_elem_of_In in Hin. by apply Hhs. }
  clear Hls Hhs.
  destruct o as [| |v|l|l v|l v|l v mark|l v mark|l e|l e|l e|l e mark|l e mark|l o|l o];
    simpl in *.
  - destruct (alloc_list_spec h) as (h' & HA & Hz & Hlen & _ & Hf & _).
    exists h'. rewrite (bind_ok _ _ _ _ _ HA). split; [done|].
    intros l Hlt. rewrite Hlen in Hlt.
    destruct (decide (l = length (lists h))) as [->|Hne].
    + exists []. by right.
    + destruct (Hwf l) as [xs Hx]; [lia|]. eauto.
  - destruct (New_spec h) as (h' & HN & Hr & Hlen & _ & Hf).
    exists h'. rewrite (bind_ok _ _ _ _ _ HN). split; [done|].
    intros l Hlt. rewrite Hlen in Hlt.
    destruct (decide (l = length (lists h))) as [->|Hne].
    + exists []. by left.
    + destruct (Hwf l) as [xs Hx]; [lia|]. eauto.
  - eexists. split; [reflexivity|]. intros l Hlt. simpl in Hlt.
    destruct (Hwf l Hlt) as [xs Hx]. exists xs.
    apply (repr_frame h); [done|done|].
    intros a Ha. simpl. apply lookup_app_l. by eapply repr_elem_lt.
  - assert (l < length (lists h))%nat as Hlt by (apply Hl; set_solver).
    destruct (Hwf l Hlt) as [xs Hx]. destruct (repr_root _ _ _ Hx) as (r & Hr & Hrl).
    destruct (Init_ring _ _ _ Hr Hrl) as (h' & HI & Hx' & _ & Hk).
    exists h'. rewrite (bind_ok _ _ _ _ _ HI). split; [done|]. by eapply wf_update.
  - assert (l < length (lists h))%nat as Hlt by (apply Hl; set_solver).
    destruct (Hwf l Hlt) as [xs Hx].
    destruct (PushBack_repr h l xs v Hx) as (h' & HP & Hx' & _ & _ & Hk).
    { pose proof (repr_length _ _ _ Hx). apply small_bound in Hs. rewrite pow_63. lia. }
    exists h'. rewrite (bind_ok _ _ _ _ _ HP). split; [done|]. by eapply wf_update.
  - assert (l < length (lists h))%nat as Hlt by (apply Hl; set_solver).
    destruct (Hwf l Hlt) as [xs Hx].
    destruct (PushFront_repr h l xs v Hx) as (h' & HP & Hx' & _ & _ & Hk).
    { pose proof (repr_length _ _ _ Hx). apply small_bound in Hs. rewrite pow_63. lia. }
    exists h'. rewrite (bind_ok _ _ _ _ _ HP). split; [done|]. by eapply wf_update.
  - destruct (InsertAfter_wf h l v mark) as (r & h' & HI & Hwf'); try done.
    { apply Hl; set_solver. } { apply Hu; set_solver. }
    exists h'. by rewrite (bind_ok _ _ _ _ _ HI).
  - destruct (InsertBefore_wf h l v mark) as (r & h' & HI & Hwf'); try done.
    { apply Hl; set_solver. } { apply Hu; set_solver. }
    exists h'. by rewrite (bind_ok _ _ _ _ _ HI).
  - destruct (Remove_wf h l e) as (r & h' & HI & Hwf'); try done.
    { apply Hl; set_solver. } { apply Hu; set_solver. }
    exists h'. by rewrite (bind_ok _ _ _ _ _ HI).
  - apply MoveToFront_wf; [done|apply Hl; set_solver|apply Hu; set_solver].
  - apply MoveToBack_wf; [done|apply Hl; set_solver|apply Hu; set_solver].
  - apply MoveBefore_wf; [done|apply Hl; set_solver|apply Hu; set_solver..].
  - apply MoveAfter_wf; [done|apply Hl; set_solver|apply Hu; set_solver..].
  - assert (l < length (lists h))%nat as Hlt by (apply Hl; set_solver).
    assert (o < length (lists h))%nat as Hlo by (apply Hl; set_solver).
    destruct (Hwf l Hlt) as [xs Hx]. destruct (Hwf o Hlo) as [ys Hy].
    destruct (PushBackList_repr h l o xs ys Hx Hy) as (h' & news & HP & Hx' & _ & _ & _ & Hk).
    { pose proof (repr_length _ _ _ Hx). pose proof (repr_length _ _ _ Hy).
      apply small_bound in Hs. rewrite pow_63. lia. }
    exists h'. split; [done|]. by eapply (wf_update h h' l).
  - assert (l < length (lists h))%nat as Hlt by (apply Hl; set_solver).
    assert (o < length (lists h))%nat as Hlo by (apply Hl; set_solver).
    destruct (Hwf l Hlt) as [xs Hx]. destruct (Hwf o Hlo) as [ys Hy].
    destruct (PushFrontList_repr h l o xs ys Hx Hy) as (h' & news & HP & Hx' & _ & _ & _ & Hk).
    { pose proof (repr_length _ _ _ Hx). pose proof (repr_length _ _ _ Hy).
      apply small_bound in Hs. rewrite pow_63. lia. }
    exists h'. split; [done|]. by eapply (wf_update h h' l).
Qed.

Lemma wf_empty : wf empty_heap.
Proof. intros l Hl. simpl in Hl. lia. Qed.

Lemma run_wf ops : ∀ h,
  wf h → legal_run ops h = true → ∃ h', run ops h = Ok tt h' ∧ wf h'.
Proof.
  induction ops as [|o ops IH]; intros h Hwf Hlegal.
  - exists h. done.
  - simpl in Hlegal. apply andb_prop in Hlegal as [Hl Hrest].
    destruct (exec_wf h o Hwf Hl) as (h1 & He & Hwf1).
    rewrite He in Hrest. destruct (IH h1 Hwf1 Hrest) as (h' & Hr & Hwf').
    exists h'. simpl. by rewrite (bind_ok _ _ _ _ _ He).
Qed.

(** ** Proofs of the stated properties *)

Lemma shape_reach h l xs e : shape h l xs → reach h l e → e ∈ cycle l xs.
Proof.
  intros Hr. induction 1 as [|p q Hp IH Hq].
  - apply elem_of_cycle. eauto.
  - apply list_elem_of_lookup in IH as [i Hi].
    destruct (shape_next _ _ _ _ _ Hr Hi) as (s & Hs & [Hn _]).
    assert (q = s) as -> by congruence. by eapply elem_of_cycle_snoc.
Qed.

Lemma shape_ring_ok h l xs e : shape h l xs → e ∈ cycle l xs → ring_ok h e.
Proof.
  intros Hr He. pose proof He as [i Hi]%list_elem_of_lookup.
  destruct (shape_valid _ _ _ _ Hr He) as [el Hel]. exists el. split; [done|].
  destruct (shape_next _ _ _ _ _ Hr Hi) as (s & Hs & [Hn Hp]).
  unfold nextOf in Hn. rewrite Hel in Hn. simpl in Hn. injection Hn as ->.
  split; [|done].
  destruct i as [|i].
  - simpl in Hi. injection Hi as <-.
    destruct (shape_next h l xs (length xs) _ Hr (cycle_lookup_last l xs))
      as (s' & Hs' & [Hn' Hp']).
    assert (s' = Root l) as ->.
    { rewrite lookup_app_r in Hs'; [|unfold cycle; simpl; rewrite length_fmap; lia].
      replace (S (length xs) - length (cycle l xs))%nat with 0%nat in Hs'; [by injection Hs'|].
      unfold cycle. simpl. rewrite length_fmap. lia. }
    unfold prevOf in Hp'. rewrite Hel in Hp'. simpl in Hp'. injection Hp' as ->. done.
  - assert (is_Some (cycle l xs !! i)) as [p Hpi].
    { apply lookup_lt_is_Some. apply lookup_lt_Some in Hi. lia. }
    destruct (shape_next _ _ _ _ _ Hr Hpi) as (e' & He' & [Hn' Hp']).
    rewrite (lookup_app_l_Some _ _ _ _ Hi) in He'. injection He' as <-.
    unfold prevOf in Hp'. rewrite Hel in Hp'. simpl in Hp'. injection Hp' as ->. done.
Qed.

Lemma ring_ring_invariant h l xs : ring h l xs → ring_invariant h l.
Proof.
  intros [Hr _] e He. eapply shape_ring_ok; [done|]. by eapply shape_reach.
Qed.

Lemma repr_size_invariant h l xs : repr h l xs → size_invariant h l.
Proof.
  intros Hx. exists (length (elems h)), (Elem <$> xs). split.
  - apply forward_repr; [done|]. by eapply repr_length.
  - rewrite length_fmap. destruct Hx as [Hr|[Hz ->]].
    + by apply Len_ring.
    + by apply Len_zero.
Qed.

(** C1, as amended.  In every heap reached from the empty heap by legal
    calls of the public operations (lists made by [New] or declared as zero
    values; every element handle passed non-nil and not stale), each list is
    still an untouched zero value or every node reachable from its sentinel
    via [next] links, sentinel included, satisfies [e.prev.next == e] and
    [e.next.prev == e]. *)
Theorem ring_invariant_of_legal_runs ops :
  legal_run ops empty_heap = true →
  ∃ h, run ops empty_heap = Ok tt h ∧
       ∀ l, (l < length (lists h))%nat → zero_value h l ∨ ring_invariant h l.
Proof.
  intros Hlegal. destruct (run_wf ops empty_heap wf_empty Hlegal) as (h & Hrun & Hwf).
  exists h. split; [done|]. intros l Hl.
  destruct (Hwf l Hl) as (xs & [Hr|[Hz _]]); [right|by left].
  by eapply ring_ring_invariant.
Qed.

(** C2, as amended.  In every heap reached from the empty heap by legal
    calls of the public operations, [Len()] of each list equals the number
    of elements obtained by walking from [Front()] by [Next()] until nil. *)
Theorem size_invariant_of_legal_runs ops :
  legal_run ops empty_heap = true →
  ∃ h, run ops empty_heap = Ok tt h ∧
       ∀ l, (l < length (lists h))%nat → size_invariant h l.
Proof.
  intros Hlegal. destruct (run_wf ops empty_heap wf_empty Hlegal) as (h & Hrun & Hwf).
  exists h. split; [done|]. intros l Hl.
  destruct (Hwf l Hl) as (xs & Hx). by eapply repr_size_invariant.
Qed.

Lemma pushBackAll_ring l vs : ∀ h xs us,
  ring h l xs → values h xs = Some <$> us →
  Z.of_nat (length xs + length vs) < 2 ^ 63 →
  ∃ h' news, pushBackAll l vs h = Ok tt h' ∧
             ring h' l (xs ++ news) ∧
             values h' (xs ++ news) = Some <$> (us ++ vs).
Proof.
  induction vs as [|v vs IH]; intros h xs us Hx Hv Hlt.
  - exists h, []. by rewrite !app_nil_r.
  - destruct (PushBack_repr h l xs v) as (h1 & HP & Hx1 & Hv1 & _ & Hk); [by left|simpl in Hlt; lia|].
    destruct (IH h1 (xs ++ [length (elems h)]) (us ++ [v]) Hx1) as (h' & news & HA & Hx' & Hv').
    { unfold values. rewrite !fmap_app. simpl. rewrite Hv1. f_equal.
      rewrite <- Hv. apply (values_kept l); [done|].
      intros a Ha. by eapply ring_valid. }
    { rewrite length_app. simpl in *. lia. }
    exists h', (length (elems h) :: news). rewrite <- !app_assoc in *.
    simpl. by rewrite (bind_ok _ _ _ _ _ HP).
Qed.

(** C3.  After [PushBack(v1) .. PushBack(vn)] on a fresh list from [New()],
    the walk from [Front()] by [Next()] meets exactly [n] elements whose
    values are [v1..vn], and the walk from [Back()] by [Prev()] meets the
    same elements in the opposite order: values [vn..v1].  ([n] is below
    [2^63], the range of the [int] that holds the size.) *)
Theorem pushback_round_trip h0 vs :
  Z.of_nat (length vs) < 2 ^ 63 →
  ∃ l h ps,
    (let! l := New in pushBackAll l vs >> ret l) h0 = Ok l h ∧
    (∀ fuel, (length vs ≤ fuel)%nat → forward fuel l h = Ok (Some ps) h) ∧
    valueOf h <$> ps = Some <$> vs ∧
    (∀ fuel, (length vs ≤ fuel)%nat → backward fuel l h = Ok (Some (reverse ps)) h) ∧
    valueOf h <$> reverse ps = Some <$> reverse vs.
Proof.
  intros Hlt. destruct (New_spec h0) as (h1 & HN & Hr1 & _).
  destruct (pushBackAll_ring (length (lists h0)) vs h1 [] [] Hr1 eq_refl)
    as (h & news & HA & Hx & Hv); [simpl; lia|].
  simpl in Hx, Hv.
  assert (length news = length vs) as Hlen.
  { apply (f_equal length) in Hv. unfold values in Hv. by rewrite !length_fmap in Hv. }
  exists (length (lists h0)), h, (Elem <$> news).
  rewrite (bind_ok _ _ _ _ _ HN), (bind_ok _ _ _ _ _ HA).
  assert (valueOf h <$> (Elem <$> news) = Some <$> vs) as Hv'.
  { rewrite <- Hv. unfold values. by rewrite <- list_fmap_compose. }
  split_and!; try done.
  - intros fuel Hf. apply forward_ring; [done|lia].
  - intros fuel Hf. rewrite <- fmap_reverse. apply backward_ring; [done|lia].
  - by rewrite !fmap_reverse, Hv'.
Qed.

(** C4.  On every list [L], a zero value included, [L.PushBackList(L)]
    returns, and leaves [L] holding its former elements, untouched and in
    place, followed by as many new elements carrying the same values in the
    same order. *)
Theorem PushBackList_self_append h l xs :
  repr h l xs → Z.of_nat (2 * length xs) < 2 ^ 63 →
  ∃ h' news,
    PushBackList l l h = Ok tt h' ∧
    ring h' l (xs ++ news) ∧
    length news = length xs ∧
    values h' xs = values h xs ∧
    values h' news = values h xs ∧
    forward (2 * length xs) l h' = Ok (Some (Elem <$> xs ++ news)) h' ∧
    Len l h' = Ok (Z.of_nat (2 * length xs)) h'.
Proof.
  intros Hx Hlt.
  destruct (PushBackList_repr h l l xs xs) as (h' & news & HP & Hx' & Hnews & Hv & _ & Hk);
    [done|done|lia|].
  assert (length news = length xs) as Hlen by (by rewrite Hnews, length_seq).
  exists h', news. split_and!; try done.
  - apply (values_kept l); [done|]. intros a Ha. by eapply repr_valid.
  - apply forward_ring; [done|]. rewrite length_app. lia.
  - rewrite (Len_ring _ _ _ Hx'). do 2 f_equal. rewrite length_app. lia.
Qed.

(** C5.  [PushFrontList(other)] puts, in front of the elements the list
    already holds, new elements carrying the values of [other] in
    [other]'s own front-to-back order; a source that is another list is
    left as it was. *)
Theorem PushFrontList_keeps_order h l o xs ys :
  repr h l xs → repr h o ys →
  Z.of_nat (length xs + length ys) < 2 ^ 63 →
  ∃ h' news,
    PushFrontList l o h = Ok tt h' ∧
    ring h' l (news ++ xs) ∧
    values h' news = values h ys ∧
    values h' xs = values h xs ∧
    forward (length ys + length xs) l h' = Ok (Some (Elem <$> news ++ xs)) h' ∧
    (o ≠ l → repr h' o ys ∧ values h' ys = values h ys).
Proof.
  intros Hx Hy Hlt.
  destruct (PushFrontList_repr h l o xs ys Hx Hy Hlt)
    as (h' & news & HP & Hx' & Hlen & Hv & _ & Hk).
  exists h', news. split_and!; try done.
  - apply (values_kept l); [done|]. intros a Ha. by eapply (repr_valid h l xs).
  - apply forward_ring; [done|]. rewrite length_app. lia.
  - intros Hne. split; [by eapply kept_repr|].
    apply (values_kept l); [done|]. intros a Ha. by eapply (repr_valid h o ys).
Qed.

Lemma insert_rejected h l v mark m :
  look h mark = Some m → list_ m ≠ Some l →
  InsertAfter l v mark h = Ok Nil h ∧ InsertBefore l v mark h = Ok Nil h.
Proof.
  intros Hm Hl. unfold InsertAfter, InsertBefore.
  rewrite !(bind_load _ _ _ _ Hm). by rewrite !decide_False.
Qed.

(** C6.  When the back-reference of [mark] is not [L], [L.InsertAfter(v,
    mark)] and [L.InsertBefore(v, mark)] return nil and leave the whole heap
    as it was: every list, every element, every size. *)
Theorem insert_guard h l v mark m :
  look h mark = Some m → list_ m ≠ Some l →
  InsertAfter l v mark h = Ok Nil h ∧ InsertBefore l v mark h = Ok Nil h.
Proof. apply insert_rejected. Qed.

Lemma Next_detached h e el : look h e = Some el → list_ el = None → Next e h = Ok Nil h.
Proof. intros He Hl. unfold Next. by rewrite (bind_load _ _ _ _ He), Hl. Qed.

Lemma Prev_detached h e el : look h e = Some el → list_ el = None → Prev e h = Ok Nil h.
Proof. intros He Hl. unfold Prev. by rewrite (bind_load _ _ _ _ He), Hl. Qed.

Lemma Remove_guard h l e el :
  look h e = Some el → list_ el ≠ Some l → Remove l e h = Ok (Value el) h.
Proof.
  intros He Hl. unfold Remove. rewrite (bind_load _ _ _ _ He). by rewrite decide_False.
Qed.

(** [Remove] on any heap, for an element whose back-reference is the
    list and whose neighbours are allocated. *)
Lemma Remove_effect h l e el n :
  look h e = Some el → list_ el = Some l →
  is_Some (look h (prev el)) → is_Some (look h (next el)) →
  prev el ≠ e → next el ≠ e →
  sizeOf h l = Some n → - 2 ^ 63 < n < 2 ^ 63 →
  ∃ h', Remove l e h = Ok (Value el) h' ∧
        nextOf h' (prev el) = Some (next el) ∧
        prevOf h' (next el) = Some (prev el) ∧
        look h' e = Some (mkElement Nil Nil None (Value el)) ∧
        sizeOf h' l = Some (n - 1) ∧
        Next e h' = Ok Nil h' ∧
        Prev e h' = Ok Nil h'.
Proof.
  intros He Hl [pe Hp] [se Hs] Hpe Hse Hn Hrange.
  assert (∃ h', Remove l e h = Ok (Value el) h' ∧
        nextOf h' (prev el) = Some (next el) ∧
        prevOf h' (next el) = Some (prev el) ∧
        look h' e = Some (mkElement Nil Nil None (Value el)) ∧
        sizeOf h' l = Some (n - 1)) as (h' & HR & H1 & H2 & H3 & H4).
  { eexists. split_and!.
    - unfold Remove. rewrite (bind_load _ _ _ _ He). rewrite decide_True by done.
      do 10 exec_step. rewrite int_wrap_id by lia. reflexivity.
    - by look_crush.
    - by look_crush.
    - look_crush.
    - rewrite sizeOf_upd_size, decide_True, !sizeOf_upd by done. by rewrite Hn. }
  exists h'. split_and!; try done.
  - by eapply Next_detached.
  - by eapply Prev_detached.
Qed.

(** C7.  When the back-reference of [e] is [L], [L.Remove(e)] returns the
    value stored in [e], links the two neighbours of [e] to each other,
    sets the links and the back-reference of [e] to nil and takes one off
    [Len()]; afterwards [e.Next()] and [e.Prev()] return nil.  On a
    well-formed list the ring that remains holds the other elements in
    their order.  When the back-reference of [e] is not [L], the call
    returns the stored value and changes nothing. *)
Theorem Remove_semantics :
  (∀ h l e el n,
     look h e = Some el → list_ el = Some l →
     is_Some (look h (prev el)) → is_Some (look h (next el)) →
     prev el ≠ e → next el ≠ e →
     sizeOf h l = Some n → - 2 ^ 63 < n < 2 ^ 63 →
     ∃ h', Remove l e h = Ok (Value el) h' ∧
           nextOf h' (prev el) = Some (next el) ∧
           prevOf h' (next el) = Some (prev el) ∧
           look h' e = Some (mkElement Nil Nil None (Value el)) ∧
           sizeOf h' l = Some (n - 1) ∧
           Next e h' = Ok Nil h' ∧
           Prev e h' = Ok Nil h') ∧
  (∀ h l xs j a,
     ring h l xs → xs !! j = Some a →
     ∃ h' v, Remove l (Elem a) h = Ok v h' ∧
             valueOf h (Elem a) = Some v ∧
             ring h' l (delete j xs) ∧
             look h' (Elem a) = Some (mkElement Nil Nil None v) ∧
             Len l h' = Ok (Z.of_nat (length xs) - 1) h' ∧
             Next (Elem a) h' = Ok Nil h' ∧
             Prev (Elem a) h' = Ok Nil h') ∧
  (∀ h l e el,
     look h e = Some el → list_ el ≠ Some l →
     Remove l e h = Ok (Value el) h).
Proof.
  split_and!.
  - intros h l e el n. apply Remove_effect.
  - intros h l xs j a Hx Hj.
    destruct (Remove_ring _ _ _ _ _ Hx Hj) as (h' & v & HR & Hv & Hx' & Hl & Hsz & _).
    exists h', v. split_and!; try done.
    + rewrite (Len_ring _ _ _ Hx'). do 2 f_equal.
      rewrite length_delete by eauto. apply lookup_lt_Some in Hj. lia.
    + by eapply Next_detached.
    + by eapply Prev_detached.
  - intros h l e el. apply Remove_guard.
Qed.

(** [lazyInit] on a zero value is [Init], and a second [lazyInit] is void. *)
Lemma lazy_init_first {A} (k : unit → M A) h l :
  zero_value h l →
  bind (lazyInit l) k h = bind (Init l) (λ _, bind (lazyInit l) k) h.
Proof.
  intros Hz. destruct (Init_ring h l zero_Element) as (h1 & HI & Hr & _);
    [by apply zero_value_look|done|].
  rewrite (bind_ok _ _ _ _ _ HI).
  rewrite (bind_ok _ _ _ _ _ (lazyInit_ring _ _ _ Hr)).
  unfold bind at 1. rewrite lazyInit_zero by done.
  by rewrite (bind_ok _ _ _ _ _ HI).
Qed.

Lemma insert_rejected_on_empty h l v mark :
  wf h → repr h l [] → usable h mark = true →
  InsertAfter l v mark h = Ok Nil h ∧ InsertBefore l v mark h = Ok Nil h.
Proof.
  intros Hwf Hl Hu. destruct (usable_look _ _ Hu) as [m Hm].
  apply (insert_rejected h l v mark m Hm). intros Hml.
  destruct (usable_member _ _ _ _ Hwf Hu Hm Hml) as (xs & j & a & Hx & _ & Hj).
  assert (xs = []) as -> by (eapply repr_unique; [by left|done]). done.
Qed.

Lemma Init_zero h l :
  zero_value h l → ∃ h1, Init l h = Ok l h1 ∧ fresh_ring h1 l.
Proof.
  intros Hz. pose proof (zero_value_look _ _ Hz) as Hr.
  assert (sizeOf h l = Some 0) as Hs by (unfold sizeOf; by rewrite Hz).
  eexists. split.
  - unfold Init. do 3 exec_step. reflexivity.
  - unfold fresh_ring, zero_value in *. simpl.
    rewrite !list_lookup_alter_eq, Hz. done.
Qed.

(** C8, as amended.  On a zero-value list, [PushBack], [PushFront],
    [PushBackList] and [PushFrontList] first run the [Init] sequence, which
    puts the list in the state [New()] returns it in.  [InsertAfter] and
    [InsertBefore] do not: on a zero-value list of a reachable heap they
    return nil for every usable mark and leave the list a zero value, which
    is also their answer on an empty list from [New()]. *)
Theorem lazy_initialization :
  (∀ h l, zero_value h l →
     (∀ v, PushBack l v h = (Init l >> PushBack l v) h) ∧
     (∀ v, PushFront l v h = (Init l >> PushFront l v) h) ∧
     (∀ o, PushBackList l o h = (Init l >> PushBackList l o) h) ∧
     (∀ o, PushFrontList l o h = (Init l >> PushFrontList l o) h) ∧
     (∃ h1, Init l h = Ok l h1 ∧ fresh_ring h1 l)) ∧
  (∀ h, ∃ l h1, New h = Ok l h1 ∧ fresh_ring h1 l) ∧
  (∀ ops h l v mark,
     legal_run ops empty_heap = true → run ops empty_heap = Ok tt h →
     zero_value h l ∨ ring h l [] →
     usable h mark = true →
     InsertAfter l v mark h = Ok Nil h ∧ InsertBefore l v mark h = Ok Nil h).
Proof.
  split_and!.
  - intros h l Hz. split_and!; intros; try (by apply lazy_init_first).
    by apply Init_zero.
  - intros h. destruct (alloc_list_spec h) as (h0 & HA & Hz & _).
    destruct (Init_zero _ _ Hz) as (h1 & HI & Hf).
    exists (length (lists h)), h1. unfold New. by rewrite (bind_ok _ _ _ _ _ HA).
  - intros ops h l v mark Hlegal Hrun Hl Hu.
    destruct (run_wf ops empty_heap wf_empty Hlegal) as (h' & Hrun' & Hwf).
    assert (h' = h) as -> by congruence.
    apply insert_rejected_on_empty; [done| |done].
    destruct Hl; [by right|by left].
Qed.






(** *** Reading a successful run backwards *)

Lemma bind_inv {A B} (c : M A) (k : A → M B) h b h' :
  bind c k h = Ok b h' → ∃ a h1, c h = Ok a h1 ∧ k a h1 = Ok b h'.
Proof. unfold bind. destruct (c h) as [a h1| |]; [eauto|done..]. Qed.

Lemma load_inv p h e h1 : load p h = Ok e h1 → h1 = h ∧ look h p = Some e.
Proof.
  unfold load. destruct (look h p); [|by destruct p]. by intros [= -> ->].
Qed.

Lemma modify_inv p f h u h1 :
  modify p f h = Ok u h1 → h1 = upd p f h ∧ is_Some (look h p).
Proof.
  unfold modify. destruct (look h p); [|by destruct p]. intros [= _ <-]. eauto.
Qed.

Lemma get_size_inv l h n h1 : get_size l h = Ok n h1 → h1 = h.
Proof. unfold get_size. destruct (lists h !! l); [|done]. by intros [= _ ->]. Qed.

Lemma set_size_inv l n h u h1 :
  set_size l n h = Ok u h1 → h1 = upd_size l (λ _, n) h.
Proof. unfold set_size. destruct (lists h !! l); [|done]. by intros [= _ <-]. Qed.

Lemma look_upd_field p f h q e :
  look h q = Some e →
  (∀ x, Value (f x) = Value x) →
  ∃ e', look (upd p f h) q = Some e' ∧ Value e' = Value e ∧
        (q ≠ p → e' = e) ∧ (q = p → e' = f e).
Proof.
  intros Hq Hf. rewrite look_upd, Hq. destruct (decide (q = p)); simpl.
  - exists (f e). by split_and!.
  - exists e. by split_and!.
Qed.

(** A [Remove] that got past the membership test leaves its element
    with nil links, a nil back-reference and the value it had. *)
Lemma Remove_clears h l e el v h1 :
  look h e = Some el → list_ el = Some l → Remove l e h = Ok v h1 →
  v = Value el ∧ look h1 e = Some (mkElement Nil Nil None (Value el)).
Proof.
  intros He Hl HR. unfold Remove in HR.
  rewrite (bind_load _ _ _ _ He), decide_True in HR by done.
  repeat match type of HR with
         | bind _ _ _ = Ok _ _ =>
             let H := fresh "Hstep" in
             apply bind_inv in HR as (? & ? & H & HR)
         end.
  repeat match goal with
         | H : bind _ _ _ = Ok _ _ |- _ =>
             let H' := fresh "Hstep" in
             apply bind_inv in H as (? & ? & H' & H)
         end.
  repeat match goal with
         | H : load _ _ = Ok _ _ |- _ =>
             apply load_inv in H as [-> H]; try (rewrite He in H; injection H as <-)
         | H : modify _ _ _ = Ok _ _ |- _ => apply modify_inv in H as [-> _]
         | H : get_size _ _ = Ok _ _ |- _ => apply get_size_inv in H as ->
         | H : set_size _ _ _ = Ok _ _ |- _ => apply set_size_inv in H as ->
         end.
  unfold ret in HR. injection HR as <- <-.
  match goal with H : look (upd_size _ _ _) e = Some ?x |- _ => rename H into Hfin end.
  rewrite Hfin. rewrite look_upd_size in Hfin.
  destruct (look_upd_field (prev el) (set_next (next el)) h e el He) as (e1 & H1 & V1 & _);
    [done|].
  match type of Hfin with
  | context [upd ?p (set_prev ?q) (upd (prev el) _ h)] =>
      destruct (look_upd_field p (set_prev q) _ e e1 H1) as (e2 & H2 & V2 & _); [done|]
  end.
  do 3 rewrite look_upd, decide_True in Hfin by done.
  rewrite H2 in Hfin. simpl in Hfin.
  injection Hfin as <-. simpl. split; [congruence|]. unfold set_list, set_next, set_prev.
  simpl. do 2 f_equal. congruence.
Qed.

(** C10.  Once [L.Remove(e)] has run on an element [e] made by a push or
    insert on [L] (its back-reference is [L] or already nil), every further
    [Remove(e)], on [L] or on any other list, returns the same value and
    leaves the heap, the sizes included, as it is. *)
Theorem Remove_idempotent h l e el v h1 :
  look h e = Some el →
  list_ el = Some l ∨ list_ el = None →
  Remove l e h = Ok v h1 →
  v = Value el ∧ ∀ l', Remove l' e h1 = Ok v h1.
Proof.
  intros He [Hl|Hl] HR.
  - destruct (Remove_clears _ _ _ _ _ _ He Hl HR) as [-> Hc].
    split; [done|]. intros l'. by rewrite (Remove_guard _ l' _ _ Hc).
  - rewrite (Remove_guard _ l _ _ He) in HR by congruence.
    injection HR as <- <-. split; [done|]. intros l'.
    apply Remove_guard; [done|congruence].
Qed.

(** ** Where insertions and moves put an element *)

Lemma cycle_last_app l X Y :
  cycle l (X ++ Y) !! length X = Some (from_option Elem (Root l) (last X)).
Proof.
  rewrite <- (cycle_lookup_last l X). unfold cycle. rewrite fmap_app, app_comm_cons.
  apply lookup_app_l. simpl. rewrite length_fmap. lia.
Qed.

Lemma take_drop_insert {A} (X Y : list A) x :
  take (length X) (X ++ Y) ++ x :: drop (length X) (X ++ Y) = X ++ x :: Y.
Proof. by rewrite take_app_length, drop_app_length. Qed.

Lemma insertValueAfter_split h l X Y v :
  ring h l (X ++ Y) → Z.of_nat (length (X ++ Y)) + 1 < 2 ^ 63 →
  ∃ h', insertValueAfter l v (from_option Elem (Root l) (last X)) h =
          Ok (Elem (length (elems h))) h' ∧
        ring h' l (X ++ length (elems h) :: Y) ∧
        valueOf h' (Elem (length (elems h))) = Some v ∧
        length (elems h') = S (length (elems h)) ∧
        kept l h h'.
Proof.
  intros Hr Hlt.
  destruct (insertValueAfter_ring h l (X ++ Y) (length X) _ v Hr (cycle_last_app l X Y) Hlt)
    as (h' & HI & Hr' & Hv & Hlen & Hk).
  rewrite take_drop_insert in Hr'. eauto 10.
Qed.

Lemma moveAfter_split h l A a B X Y :
  ring h l (A ++ a :: B) → A ++ B = X ++ Y →
  ∃ h', moveAfter l (Elem a) (from_option Elem (Root l) (last X)) h = Ok tt h' ∧
        ring h' l (X ++ a :: Y) ∧
        length (elems h') = length (elems h) ∧
        kept l h h'.
Proof.
  intros Hr HXY.
  destruct (moveAfter_ring h l (A ++ a :: B) (length A) a (length X)
              (from_option Elem (Root l) (last X)) Hr)
    as (h' & HM & Hr' & Hlen & Hk).
  { by apply list_lookup_middle. }
  { rewrite delete_middle, HXY. apply cycle_last_app. }
  rewrite delete_middle, HXY, take_drop_insert in Hr'. eauto 10.
Qed.

(** The record of a member of a ring: its back-reference is the list and
    its [prev] is the node before it. *)
Lemma ring_member h l P b Q :
  ring h l (P ++ b :: Q) →
  ∃ m, look h (Elem b) = Some m ∧ list_ m = Some l ∧
       prev m = from_option Elem (Root l) (last P) ∧
       next m = from_option Elem (Root l) (head Q).
Proof.
  intros [Hr _].
  destruct (shape_elem h l (P ++ b :: Q) (length P) b Hr) as (m & Hm & Hl & Hp & Hn & _).
  { by apply list_lookup_middle. }
  exists m. split_and!; try done.
  - rewrite cycle_last_app in Hp. by injection Hp.
  - replace (P ++ b :: Q) with ((P ++ [b]) ++ Q) in Hn by (by rewrite <- app_assoc).
    destruct Q as [|q Q].
    + rewrite app_nil_r in Hn. rewrite lookup_app_r in Hn.
      2:{ unfold cycle. simpl. rewrite length_fmap, length_app. simpl. lia. }
      replace (S (S (length P)) - length (cycle l (P ++ [b])))%nat with 0%nat in Hn.
      2:{ unfold cycle. simpl. rewrite length_fmap, length_app. simpl. lia. }
      simpl in Hn. by injection Hn.
    + rewrite lookup_app_l in Hn.
      2:{ unfold cycle. simpl. rewrite length_fmap, !length_app. simpl. lia. }
      rewrite cycle_lookup_S in Hn.
      rewrite (list_lookup_middle (P ++ [b]) Q q) in Hn.
      2:{ rewrite length_app. simpl. lia. }
      simpl in Hn. by injection Hn.
Qed.

Lemma ring_NoDup h l xs : ring h l xs → NoDup xs.
Proof. by intros [(_ & ? & _) _]. Qed.

(** [InsertAfter] puts the new element right after its mark. *)
Theorem InsertAfter_places h l A a B v :
  ring h l (A ++ a :: B) → Z.of_nat (length (A ++ a :: B)) + 1 < 2 ^ 63 →
  ∃ h', InsertAfter l v (Elem a) h = Ok (Elem (length (elems h))) h' ∧
        ring h' l (A ++ a :: length (elems h) :: B) ∧
        valueOf h' (Elem (length (elems h))) = Some v ∧
        length (elems h') = S (length (elems h)) ∧
        kept l h h'.
Proof.
  intros Hr Hlt. destruct (ring_member _ _ _ _ _ Hr) as (m & Hm & Hl & _).
  unfold InsertAfter. rewrite (bind_load _ _ _ _ Hm), decide_True by done.
  replace (A ++ a :: B) with ((A ++ [a]) ++ B) in Hr, Hlt by (by rewrite <- app_assoc).
  destruct (insertValueAfter_split h l (A ++ [a]) B v Hr Hlt) as (h' & HI & Hr' & ?).
  rewrite last_snoc in HI. rewrite <- app_assoc in Hr'. eauto.
Qed.

(** [InsertBefore] puts the new element right before its mark. *)
Theorem InsertBefore_places h l A a B v :
  ring h l (A ++ a :: B) → Z.of_nat (length (A ++ a :: B)) + 1 < 2 ^ 63 →
  ∃ h', InsertBefore l v (Elem a) h = Ok (Elem (length (elems h))) h' ∧
        ring h' l (A ++ length (elems h) :: a :: B) ∧
        valueOf h' (Elem (length (elems h))) = Some v ∧
        length (elems h') = S (length (elems h)) ∧
        kept l h h'.
Proof.
  intros Hr Hlt. destruct (ring_member _ _ _ _ _ Hr) as (m & Hm & Hl & Hp & _).
  unfold InsertBefore. rewrite (bind_load _ _ _ _ Hm), decide_True by done.
  rewrite (bind_load _ _ _ _ Hm), Hp.
  destruct (insertValueAfter_split h l A (a :: B) v Hr Hlt) as (h' & HI & Hr' & ?).
  eauto.
Qed.

(** [PushFront] on any list, a zero value included, makes the new element
    the first one, and [Front()] returns it. *)
Theorem PushFront_prepends h l xs v :
  repr h l xs → Z.of_nat (length xs) + 1 < 2 ^ 63 →
  ∃ h', PushFront l v h = Ok (Elem (length (elems h))) h' ∧
        ring h' l (length (elems h) :: xs) ∧
        valueOf h' (Elem (length (elems h))) = Some v ∧
        Front l h' = Ok (Elem (length (elems h))) h' ∧
        Len l h' = Ok (Z.of_nat (length xs) + 1) h' ∧
        kept l h h'.
Proof.
  intros Hx Hlt.
  destruct (PushFront_repr h l xs v Hx Hlt) as (h' & HP & Hr' & Hv & _ & Hk).
  exists h'. split_and!; try done.
  - by rewrite (Front_ring _ _ _ Hr').
  - rewrite (Len_ring _ _ _ Hr'). do 2 f_equal. simpl. lia.
Qed.

(** [PushBack] on any list, a zero value included, makes the new element
    the last one, and [Back()] returns it; on an empty list [Front()]
    returns it too. *)
Theorem PushBack_appends h l xs v :
  repr h l xs → Z.of_nat (length xs) + 1 < 2 ^ 63 →
  ∃ h', PushBack l v h = Ok (Elem (length (elems h))) h' ∧
        ring h' l (xs ++ [length (elems h)]) ∧
        valueOf h' (Elem (length (elems h))) = Some v ∧
        Back l h' = Ok (Elem (length (elems h))) h' ∧
        (xs = [] → Front l h' = Ok (Elem (length (elems h))) h') ∧
        Len l h' = Ok (Z.of_nat (length xs) + 1) h' ∧
        kept l h h'.
Proof.
  intros Hx Hlt.
  destruct (PushBack_repr h l xs v Hx Hlt) as (h' & HP & Hr' & Hv & _ & Hk).
  exists h'. split_and!; try done.
  - by rewrite (Back_ring _ _ _ Hr'), last_snoc.
  - intros ->. by rewrite (Front_ring _ _ _ Hr').
  - rewrite (Len_ring _ _ _ Hr'). do 2 f_equal. rewrite length_app. simpl. lia.
Qed.

Lemma ring_root h l xs :
  ring h l xs →
  ∃ r, look h (Root l) = Some r ∧
       prev r = from_option Elem (Root l) (last xs) ∧
       next r = from_option Elem (Root l) (head xs).
Proof.
  intros [Hr _]. destruct (shape_root_links _ _ _ Hr) as (r & Hl & Hp & Hn).
  exists r. split_and!; try done.
  rewrite cycle_lookup_last in Hp. by injection Hp.
Qed.

Lemma NoDup_middle_head {A} (P : list A) a b Q :
  NoDup ((b :: P) ++ a :: Q) → b ≠ a.
Proof. intros Hnd ->. apply NoDup_cons in Hnd as [Hn _]. set_solver. Qed.

Lemma NoDup_middle_last {A} (P Q : list A) a b :
  NoDup (P ++ a :: Q) → last Q = Some b → b ≠ a.
Proof.
  intros Hnd Hb ->. apply NoDup_app in Hnd as (_ & _ & Hnd).
  apply NoDup_cons in Hnd as [Hn _]. by apply Hn, last_Some_elem_of.
Qed.

(** [MoveToFront] makes its element the first one and keeps the order of
    the others; on the front element it writes nothing. *)
Theorem MoveToFront_order h l A a B :
  ring h l (A ++ a :: B) →
  ∃ h', MoveToFront l (Elem a) h = Ok tt h' ∧
        ring h' l (a :: A ++ B) ∧
        length (elems h') = length (elems h) ∧
        kept l h h' ∧
        (A = [] → h' = h).
Proof.
  intros Hr. destruct (ring_member _ _ _ _ _ Hr) as (m & Hm & Hl & _).
  destruct (ring_root _ _ _ Hr) as (r & Hrl & _ & Hn).
  unfold MoveToFront. rewrite (bind_load _ _ _ _ Hm), decide_True by done.
  rewrite (bind_load _ _ _ _ Hrl), Hn.
  destruct A as [|a0 A].
  - simpl. rewrite decide_True by done. exists h. split_and!; try done; apply kept_refl.
  - pose proof (NoDup_middle_head _ _ _ _ (ring_NoDup _ _ _ Hr)) as Hne.
    simpl. rewrite decide_False by congruence.
    destruct (moveAfter_split h l (a0 :: A) a B [] ((a0 :: A) ++ B) Hr eq_refl)
      as (h' & HM & Hr' & Hlen & Hk).
    exists h'. by split_and!.
Qed.

(** [MoveToBack] makes its element the last one and keeps the order of the
    others; on the back element it writes nothing. *)
Theorem MoveToBack_order h l A a B :
  ring h l (A ++ a :: B) →
  ∃ h', MoveToBack l (Elem a) h = Ok tt h' ∧
        ring h' l (A ++ B ++ [a]) ∧
        length (elems h') = length (elems h) ∧
        kept l h h' ∧
        (B = [] → h' = h).
Proof.
  intros Hr. destruct (ring_member _ _ _ _ _ Hr) as (m & Hm & Hl & _).
  destruct (ring_root _ _ _ Hr) as (r & Hrl & Hp & _).
  unfold MoveToBack. rewrite (bind_load _ _ _ _ Hm), decide_True by done.
  rewrite (bind_load _ _ _ _ Hrl), Hp, last_app_cons.
  destruct (last B) as [b|] eqn:Hb.
  - pose proof (NoDup_middle_last _ _ _ _ (ring_NoDup _ _ _ Hr) Hb) as Hne.
    rewrite last_cons, Hb. simpl. rewrite decide_False by congruence.
    rewrite (bind_load _ _ _ _ Hrl), Hp, last_app_cons, last_cons, Hb. simpl.
    destruct (moveAfter_split h l A a B (A ++ B) [] Hr) as (h' & HM & Hr' & Hlen & Hk).
    { by rewrite app_nil_r. }
    rewrite last_app, Hb in HM. rewrite <- app_assoc in Hr'.
    exists h'. split_and!; try done. intros ->. done.
  - apply last_None in Hb as ->. simpl. rewrite decide_True by done.
    exists h. simpl. split_and!; try done; apply kept_refl.
Qed.

(** [MoveAfter] puts its element right after the mark and keeps the order
    of all the others, whether the element stood before or after the
    mark. *)
Theorem MoveAfter_order :
  (∀ h l A a B b C,
     ring h l (A ++ a :: B ++ b :: C) →
     ∃ h', MoveAfter l (Elem a) (Elem b) h = Ok tt h' ∧
           ring h' l (A ++ B ++ b :: a :: C) ∧
           length (elems h') = length (elems h) ∧
           kept l h h') ∧
  (∀ h l A b B a C,
     ring h l (A ++ b :: B ++ a :: C) →
     ∃ h', MoveAfter l (Elem a) (Elem b) h = Ok tt h' ∧
           ring h' l (A ++ b :: a :: B ++ C) ∧
           length (elems h') = length (elems h) ∧
           kept l h h').
Proof.
  split.
  - intros h l A a B b C Hr.
    destruct (ring_member _ _ _ _ _ Hr) as (el & Hel & Hl & _).
    pose proof Hr as Hr2. rewrite app_comm_cons, app_assoc in Hr2.
    destruct (ring_member _ _ _ _ _ Hr2) as (m & Hm & Hml & _).
    assert (a ≠ b) as Hne.
    { intros ->. pose proof (ring_NoDup _ _ _ Hr) as Hnd.
      apply NoDup_app in Hnd as (_ & _ & Hnd). apply NoDup_cons in Hnd as [Hn _].
      set_solver. }
    unfold MoveAfter. rewrite (bind_load _ _ _ _ Hel), decide_True by done.
    rewrite (bind_load _ _ _ _ Hm), decide_True by done.
    rewrite decide_False by congruence.
    destruct (moveAfter_split h l A a (B ++ b :: C) (A ++ B ++ [b]) C Hr)
      as (h' & HM & Hr' & Hlen & Hk).
    { by rewrite <- !app_assoc. }
    rewrite app_assoc, last_snoc in HM. rewrite <- !app_assoc in Hr'. simpl in *.
    exists h'. by split_and!.
  - intros h l A b B a C Hr.
    destruct (ring_member _ _ _ _ _ Hr) as (m & Hm & Hml & _).
    pose proof Hr as Hr2. rewrite app_comm_cons, app_assoc in Hr2.
    destruct (ring_member _ _ _ _ _ Hr2) as (el & Hel & Hl & _).
    assert (a ≠ b) as Hne.
    { intros ->. pose proof (ring_NoDup _ _ _ Hr) as Hnd.
      apply NoDup_app in Hnd as (_ & _ & Hnd). apply NoDup_cons in Hnd as [Hn _].
      set_solver. }
    unfold MoveAfter. rewrite (bind_load _ _ _ _ Hel), decide_True by done.
    rewrite (bind_load _ _ _ _ Hm), decide_True by done.
    rewrite decide_False by congruence.
    destruct (moveAfter_split h l (A ++ b :: B) a C (A ++ [b]) (B ++ C) Hr2)
      as (h' & HM & Hr' & Hlen & Hk).
    { by rewrite <- !app_assoc. }
    rewrite last_snoc in HM. rewrite <- !app_assoc in Hr'. simpl in *.
    exists h'. by split_and!.
Qed.

(** [MoveBefore] puts its element right before the mark and keeps the order
    of all the others, whether the element stood before or after the
    mark. *)
Theorem MoveBefore_order :
  (∀ h l A a B b C,
     ring h l (A ++ a :: B ++ b :: C) →
     ∃ h', MoveBefore l (Elem a) (Elem b) h = Ok tt h' ∧
           ring h' l (A ++ B ++ a :: b :: C) ∧
           length (elems h') = length (elems h) ∧
           kept l h h') ∧
  (∀ h l A b B a C,
     ring h l (A ++ b :: B ++ a :: C) →
     ∃ h', MoveBefore l (Elem a) (Elem b) h = Ok tt h' ∧
           ring h' l (A ++ a :: b :: B ++ C) ∧
           length (elems h') = length (elems h) ∧
           kept l h h').
Proof.
  split.
  - intros h l A a B b C Hr.
    destruct (ring_member _ _ _ _ _ Hr) as (el & Hel & Hl & _).
    pose proof Hr as Hr2. rewrite app_comm_cons, app_assoc in Hr2.
    destruct (ring_member _ _ _ _ _ Hr2) as (m & Hm & Hml & Hp & _).
    assert (a ≠ b) as Hne.
    { intros ->. pose proof (ring_NoDup _ _ _ Hr) as Hnd.
      apply NoDup_app in Hnd as (_ & _ & Hnd). apply NoDup_cons in Hnd as [Hn _].
      set_solver. }
    unfold MoveBefore. rewrite (bind_load _ _ _ _ Hel), decide_True by done.
    rewrite (bind_load _ _ _ _ Hm), decide_True by done.
    rewrite decide_False by congruence.
    rewrite (bind_load _ _ _ _ Hm), Hp, last_app_cons.
    destruct (last B) as [b'|] eqn:Hb.
    + destruct (moveAfter_split h l A a (B ++ b :: C) (A ++ B) (b :: C) Hr)
        as (h' & HM & Hr' & Hlen & Hk).
      { by rewrite <- !app_assoc. }
      rewrite last_app, Hb in HM. rewrite <- !app_assoc in Hr'.
      rewrite last_cons, Hb. exists h'. by split_and!.
    + apply last_None in Hb as ->. simpl.
      unfold moveAfter. rewrite decide_True by done.
      exists h. split_and!; try done; apply kept_refl.
  - intros h l A b B a C Hr.
    destruct (ring_member _ _ _ _ _ Hr) as (m & Hm & Hml & Hp & _).
    pose proof Hr as Hr2. rewrite app_comm_cons, app_assoc in Hr2.
    destruct (ring_member _ _ _ _ _ Hr2) as (el & Hel & Hl & _).
    assert (a ≠ b) as Hne.
    { intros ->. pose proof (ring_NoDup _ _ _ Hr) as Hnd.
      apply NoDup_app in Hnd as (_ & _ & Hnd). apply NoDup_cons in Hnd as [Hn _].
      set_solver. }
    unfold MoveBefore. rewrite (bind_load _ _ _ _ Hel), decide_True by done.
    rewrite (bind_load _ _ _ _ Hm), decide_True by done.
    rewrite decide_False by congruence.
    rewrite (bind_load _ _ _ _ Hm), Hp.
    destruct (moveAfter_split h l (A ++ b :: B) a C A (b :: B ++ C) Hr2)
      as (h' & HM & Hr' & Hlen & Hk).
    { by rewrite <- !app_assoc. }
    exists h'. by split_and!.
Qed.

(** ** Stored values are never written, nothing is ever freed *)

Lemma steady_refl h : steady h h.
Proof. by split_and!. Qed.

Lemma steady_valid h h' q : steady h h' → is_Some (look h q) → is_Some (look h' q).
Proof.
  intros (_ & _ & Hv) [e He]. specialize (Hv q (ex_intro _ e He)).
  unfold valueOf in Hv. rewrite He in Hv. destruct (look h' q); [eauto|done].
Qed.

Lemma steady_trans h h1 h2 : steady h h1 → steady h1 h2 → steady h h2.
Proof.
  intros S1 S2. pose proof (λ q, steady_valid h h1 q S1) as Hv.
  destruct S1 as (A1 & B1 & C1), S2 as (A2 & B2 & C2). split_and!; [lia..|].
  intros q Hq. rewrite C2, C1; eauto.
Qed.

Lemma tame_ret {A} (a : A) : tame (ret a).
Proof. intros h a' h' [= _ <-]. apply steady_refl. Qed.

Lemma tame_bind {A B} (c : M A) (k : A → M B) :
  tame c → (∀ a, tame (k a)) → tame (bind c k).
Proof.
  intros Hc Hk h b h' (a & h1 & H1 & H2)%bind_inv.
  eapply steady_trans; [by eapply Hc|by eapply Hk].
Qed.

Lemma tame_load p : tame (load p).
Proof. intros h e h' [-> _]%load_inv. apply steady_refl. Qed.

Lemma tame_modify p f : (∀ x, Value (f x) = Value x) → tame (modify p f).
Proof.
  intros Hf h u h' [-> _]%modify_inv. split_and!.
  - by rewrite length_lists_upd.
  - by rewrite length_elems_upd.
  - intros q _. unfold valueOf. rewrite look_upd.
    destruct (decide (q = p)); [|done]. destruct (look h q); simpl; [|done].
    by rewrite Hf.
Qed.

Lemma tame_get_size l : tame (get_size l).
Proof. intros h n h' ->%get_size_inv. apply steady_refl. Qed.

Lemma tame_set_size l n : tame (set_size l n).
Proof.
  intros h u h' ->%set_size_inv. split_and!.
  - by rewrite length_lists_upd_size.
  - done.
  - intros q _. unfold valueOf. by rewrite look_upd_size.
Qed.

Lemma tame_alloc e : tame (alloc e).
Proof.
  intros h p h' [= _ <-]. split_and!; simpl.
  - done.
  - rewrite length_app. lia.
  - intros q [x Hq]. unfold valueOf. rewrite look_alloc.
    destruct (decide (q = Elem (length (elems h)))) as [->|]; [|done].
    by rewrite look_fresh in Hq.
Qed.

Lemma tame_alloc_list : tame alloc_list.
Proof.
  intros h l h' [= _ <-]. split_and!; simpl.
  - rewrite length_app. lia.
  - done.
  - intros q [x Hq]. unfold valueOf. destruct q as [|l0|a]; [done| |done].
    pose proof (look_Root_lt _ _ _ Hq). simpl. by rewrite lookup_app_l.
Qed.

Create HintDb tame.

#[local] Hint Resolve tame_ret tame_bind tame_load tame_get_size tame_set_size
  tame_alloc tame_alloc_list : tame.
#[local] Hint Extern 1 (tame (modify _ _)) => (apply tame_modify; reflexivity) : tame.
#[local] Hint Extern 2 (tame (if ?b then _ else _)) => destruct b : tame.
#[local] Hint Extern 2 (tame (match ?x with Some _ => _ | None => _ end)) =>
  destruct x : tame.

Lemma tame_Next e : tame (Next e).
Proof. unfold Next. auto 10 with tame. Qed.

Lemma tame_Prev e : tame (Prev e).
Proof. unfold Prev. auto 10 with tame. Qed.

Lemma tame_Init l : tame (Init l).
Proof. unfold Init. auto 10 with tame. Qed.

#[local] Hint Resolve tame_Next tame_Prev tame_Init : tame.

Lemma tame_New : tame New.
Proof. unfold New. auto 10 with tame. Qed.

Lemma tame_Front l : tame (Front l).
Proof. unfold Front. auto 10 with tame. Qed.

Lemma tame_Back l : tame (Back l).
Proof. unfold Back. auto 10 with tame. Qed.

Lemma tame_lazyInit l : tame (lazyInit l).
Proof. unfold lazyInit. auto 10 with tame. Qed.

Lemma tame_insertValueAfter l v mark : tame (insertValueAfter l v mark).
Proof. unfold insertValueAfter. auto 20 with tame. Qed.

Lemma tame_moveAfter l e mark : tame (moveAfter l e mark).
Proof. unfold moveAfter. auto 20 with tame. Qed.

#[local] Hint Resolve tame_New tame_Front tame_Back tame_lazyInit
  tame_insertValueAfter tame_moveAfter : tame.

Lemma tame_pushBackLoop l n : ∀ e, tame (pushBackLoop l n e).
Proof. induction n; intros e; simpl; auto 20 with tame. Qed.

Lemma tame_pushFrontLoop l n : ∀ e, tame (pushFrontLoop l n e).
Proof. induction n; intros e; simpl; auto 20 with tame. Qed.

#[local] Hint Resolve tame_pushBackLoop tame_pushFrontLoop : tame.

Lemma tame_exec o : tame (exec o).
Proof.
  destruct o; simpl;
    unfold InsertAfter, InsertBefore, Remove, MoveToFront, MoveToBack, MoveBefore,
      MoveAfter, PushBack, PushFront, PushBackList, PushFrontList, Len;
    auto 30 with tame.
Qed.

(** No sequence of calls, legal or not, frees a list or an element or
    changes the value stored in an element: whenever the calls return,
    every element allocated before still holds the value it held. *)
Theorem values_never_change ops : ∀ h h',
  run ops h = Ok tt h' → steady h h'.
Proof.
  induction ops as [|o ops IH]; intros h h' Hrun.
  - injection Hrun as <-. apply steady_refl.
  - simpl in Hrun. apply bind_inv in Hrun as (u & h1 & H1 & H2).
    eapply steady_trans; [by eapply tame_exec|by apply IH].
Qed.

(** ** Resetting, creating, walking *)

(** [Init] empties the list without touching its elements: the arena of
    elements is unchanged, so each former element keeps its links and its
    back-reference to the list, which no longer reaches it. *)
Theorem Init_resets h l xs :
  repr h l xs →
  ∃ h', Init l h = Ok l h' ∧
        ring h' l [] ∧
        Len l h' = Ok 0 h' ∧ Front l h' = Ok Nil h' ∧ Back l h' = Ok Nil h' ∧
        elems h' = elems h ∧
        kept l h h' ∧
        (∀ a, a ∈ xs →
           listOf h' (Elem a) = Some (Some l) ∧ usable h' (Elem a) = false).
Proof.
  intros Hx. destruct (repr_root _ _ _ Hx) as (r & Hr & Hrl).
  destruct (Init_ring _ _ _ Hr Hrl) as (h' & HI & Hr' & He & Hk).
  exists h'. split_and!; try done.
  - by rewrite (Len_ring _ _ _ Hr').
  - by rewrite (Front_ring _ _ _ Hr').
  - by rewrite (Back_ring _ _ _ Hr').
  - intros a Ha. destruct Hx as [Hx|[_ ->]]; [|set_solver].
    assert (listOf h' (Elem a) = Some (Some l)) as Hl.
    { unfold listOf. simpl. rewrite He.
      destruct Hx as [(_ & _ & Hf & _) _]. rewrite Forall_forall in Hf. by apply Hf. }
    split; [done|]. unfold usable. unfold listOf in Hl.
    destruct (look h' (Elem a)) as [el|]; [|done]. simpl in Hl. injection Hl as ->.
    rewrite (forward_ring _ _ _ _ Hr') by (simpl; lia). done.
Qed.

(** [New] returns an empty list that is none of the lists there are, and
    leaves every list and every element as it was. *)
Theorem New_fresh h :
  ∃ h', New h = Ok (length (lists h)) h' ∧
        ring h' (length (lists h)) [] ∧
        Len (length (lists h)) h' = Ok 0 h' ∧
        Front (length (lists h)) h' = Ok Nil h' ∧
        Back (length (lists h)) h' = Ok Nil h' ∧
        length (lists h') = S (length (lists h)) ∧
        elems h' = elems h ∧
        (∀ l ys, repr h l ys → l ≠ length (lists h) ∧ repr h' l ys).
Proof.
  destruct (alloc_list_spec h) as (h1 & H1 & Hz & Hlen & He & Hf & Hlook).
  destruct (Init_ring h1 (length (lists h)) zero_Element) as (h' & HI & Hr & He' & Hk);
    [by apply zero_value_look|done|].
  exists h'. unfold New. rewrite (bind_ok _ _ _ _ _ H1). split_and!; try done.
  - by rewrite (Len_ring _ _ _ Hr).
  - by rewrite (Front_ring _ _ _ Hr).
  - by rewrite (Back_ring _ _ _ Hr).
  - destruct Hk as (-> & _). done.
  - congruence.
  - intros l ys Hy.
    assert (l ≠ length (lists h)) as Hne.
    { destruct (repr_root _ _ _ Hy) as (r & Hrr & _).
      apply look_Root_lt in Hrr. lia. }
    split; [done|]. apply (kept_repr _ _ _ _ _ Hk); [done|by apply Hf].
Qed.

(** ** Neighbours *)

Lemma Next_member h l A a B :
  ring h l (A ++ a :: B) → Next (Elem a) h = Ok (from_option Elem Nil (head B)) h.
Proof.
  intros Hr. destruct (ring_member _ _ _ _ _ Hr) as (m & Hm & Hl & _ & Hn).
  unfold Next. rewrite (bind_load _ _ _ _ Hm), Hl, Hn.
  destruct B as [|b B]; [by rewrite decide_True|by rewrite decide_False].
Qed.

Lemma Prev_member h l A a B :
  ring h l (A ++ a :: B) → Prev (Elem a) h = Ok (from_option Elem Nil (last A)) h.
Proof.
  intros Hr. destruct (ring_member _ _ _ _ _ Hr) as (m & Hm & Hl & Hp & _).
  unfold Prev. rewrite (bind_load _ _ _ _ Hm), Hl, Hp.
  destruct (last A) as [p|]; [by rewrite decide_False|by rewrite decide_True].
Qed.

(** [Next] of a member is the element that follows it in the list, [Prev]
    the element before it; at the two ends the answer is nil, never the
    sentinel. *)
Theorem Next_Prev_neighbours h l A a B :
  ring h l (A ++ a :: B) →
  Next (Elem a) h = Ok (from_option Elem Nil (head B)) h ∧
  Prev (Elem a) h = Ok (from_option Elem Nil (last A)) h.
Proof. intros Hr. split; [by eapply Next_member|by eapply Prev_member]. Qed.

(** [Prev] undoes [Next] and [Next] undoes [Prev], wherever the answer of
    the first is not nil. *)
Theorem Next_Prev_inverse h l xs a n :
  ring h l xs → a ∈ xs → n ≠ Nil →
  (Next (Elem a) h = Ok n h → Prev n h = Ok (Elem a) h) ∧
  (Prev (Elem a) h = Ok n h → Next n h = Ok (Elem a) h).
Proof.
  intros Hr Ha Hn. apply list_elem_of_split in Ha as (A & B & ->). split; intros H.
  - rewrite (Next_member _ _ _ _ _ Hr) in H. injection H as H. subst n.
    destruct B as [|b B]; [done|]. simpl.
    replace (A ++ a :: b :: B) with ((A ++ [a]) ++ b :: B) in Hr by (by rewrite <- app_assoc).
    rewrite (Prev_member _ _ _ _ _ Hr). by rewrite last_snoc.
  - rewrite (Prev_member _ _ _ _ _ Hr) in H. injection H as H. subst n.
    destruct A as [|p A _] using rev_ind; [done|]. rewrite last_snoc. simpl.
    rewrite <- app_assoc in Hr. simpl in Hr.
    by rewrite (Next_member _ _ _ _ _ Hr).
Qed.

(** In every heap reached from the empty heap by legal calls, each list
    is walked from [Front()] by [Next()] and from [Back()] by [Prev()]
    through the same elements, in opposite orders; no element is met
    twice, there are [Len()] of them, and each names the list as its
    own. *)
Theorem traversals_of_legal_runs ops :
  legal_run ops empty_heap = true →
  ∃ h, run ops empty_heap = Ok tt h ∧
       ∀ l, (l < length (lists h))%nat →
         ∃ xs, NoDup xs ∧
               forward (length (elems h)) l h = Ok (Some (Elem <$> xs)) h ∧
               backward (length (elems h)) l h = Ok (Some (Elem <$> reverse xs)) h ∧
               Len l h = Ok (Z.of_nat (length xs)) h ∧
               ∀ a, a ∈ xs → listOf h (Elem a) = Some (Some l).
Proof.
  intros Hlegal. destruct (run_wf ops empty_heap wf_empty Hlegal) as (h & Hrun & Hwf).
  exists h. split; [done|]. intros l Hl. destruct (Hwf l Hl) as (xs & Hx).
  exists xs. pose proof (repr_length _ _ _ Hx) as Hlen. split_and!.
  - destruct Hx as [Hr|[_ ->]]; [by eapply ring_NoDup|apply NoDup_nil_2].
  - by apply forward_repr.
  - by apply backward_repr.
  - destruct Hx as [Hr|[Hz ->]]; [by apply Len_ring|by apply Len_zero].
  - intros a Ha. destruct Hx as [Hr|[_ ->]]; [|set_solver].
    destruct Hr as [(_ & _ & Hf & _) _]. rewrite Forall_forall in Hf. by apply Hf.
Qed.

(** ** Copying a list, and undoing an insertion *)

(** [PushBackList(other)] appends new elements, none of them an element
    of either list before the call, carrying the values of [other] in
    [other]'s order; the elements the list held stay in place, and a
    source that is another list is left as it was. *)
Theorem PushBackList_copies h l o xs ys :
  repr h l xs → repr h o ys →
  Z.of_nat (length xs + length ys) < 2 ^ 63 →
  ∃ h' news,
    PushBackList l o h = Ok tt h' ∧
    ring h' l (xs ++ news) ∧
    length news = length ys ∧
    (∀ a, a ∈ news → (a ∉ xs) ∧ (a ∉ ys)) ∧
    values h' news = values h ys ∧
    values h' xs = values h xs ∧
    Len l h' = Ok (Z.of_nat (length xs + length ys)) h' ∧
    (o ≠ l → repr h' o ys ∧ values h' ys = values h ys).
Proof.
  intros Hx Hy Hlt.
  destruct (PushBackList_repr h l o xs ys Hx Hy Hlt)
    as (h' & news & HP & Hx' & Hnews & Hv & _ & Hk).
  assert (length news = length ys) as Hlen by (by rewrite Hnews, length_seq).
  exists h', news. split_and!; try done.
  - intros a Ha. rewrite Hnews in Ha. apply elem_of_seq in Ha as [Ha _].
    split; intros Hin.
    + pose proof (repr_elem_lt _ _ _ _ Hx Hin). lia.
    + pose proof (repr_elem_lt _ _ _ _ Hy Hin). lia.
  - apply (values_kept l); [done|]. intros a Ha. by eapply (repr_valid h l xs).
  - rewrite (Len_ring _ _ _ Hx'). do 2 f_equal. rewrite length_app. lia.
  - intros Hne. split; [by eapply kept_repr|].
    apply (values_kept l); [done|]. intros a Ha. by eapply (repr_valid h o ys).
Qed.

Lemma insert_remove_split h l X Y v :
  ring h l (X ++ Y) → Z.of_nat (length (X ++ Y)) + 1 < 2 ^ 63 →
  ∃ h1 h2, insertValueAfter l v (from_option Elem (Root l) (last X)) h =
             Ok (Elem (length (elems h))) h1 ∧
           Remove l (Elem (length (elems h))) h1 = Ok v h2 ∧
           ring h2 l (X ++ Y) ∧
           look h2 (Elem (length (elems h))) = Some (mkElement Nil Nil None v) ∧
           kept l h h2.
Proof.
  intros Hr Hlt.
  destruct (insertValueAfter_split h l X Y v Hr Hlt) as (h1 & HI & Hr1 & Hv & _ & Hk1).
  destruct (Remove_ring h1 l _ (length X) (length (elems h)) Hr1)
    as (h2 & v' & HR & Hv' & Hr2 & Hl2 & _ & _ & Hk2).
  { by apply list_lookup_middle. }
  assert (v' = v) as -> by congruence.
  rewrite delete_middle in Hr2.
  exists h1, h2. split_and!; try done. by eapply kept_trans.
Qed.

(** Removing the element that [InsertAfter] or [InsertBefore] has just
    returned gives back the inserted value and the list as it was: the
    same elements in the same order, the same length; the removed
    element is left detached. *)
Theorem Insert_Remove_round_trip h l A a B v :
  ring h l (A ++ a :: B) → Z.of_nat (length (A ++ a :: B)) + 1 < 2 ^ 63 →
  (∃ h1 e h2, InsertAfter l v (Elem a) h = Ok e h1 ∧
              Remove l e h1 = Ok v h2 ∧
              ring h2 l (A ++ a :: B) ∧
              look h2 e = Some (mkElement Nil Nil None v) ∧
              kept l h h2) ∧
  (∃ h1 e h2, InsertBefore l v (Elem a) h = Ok e h1 ∧
              Remove l e h1 = Ok v h2 ∧
              ring h2 l (A ++ a :: B) ∧
              look h2 e = Some (mkElement Nil Nil None v) ∧
              kept l h h2).
Proof.
  intros Hr Hlt. destruct (ring_member _ _ _ _ _ Hr) as (m & Hm & Hl & Hp & _). split.
  - unfold InsertAfter. rewrite (bind_load _ _ _ _ Hm), decide_True by done.
    replace (A ++ a :: B) with ((A ++ [a]) ++ B) in Hr, Hlt |- * by (by rewrite <- app_assoc).
    destruct (insert_remove_split h l (A ++ [a]) B v Hr Hlt) as (h1 & h2 & HI & ?).
    rewrite last_snoc in HI. eauto 10.
  - unfold InsertBefore. rewrite (bind_load _ _ _ _ Hm), decide_True by done.
    rewrite (bind_load _ _ _ _ Hm), Hp.
    destruct (insert_remove_split h l A (a :: B) v Hr Hlt) as (h1 & h2 & HI & ?).
    eauto 10.
Qed.

(** Moves that have nothing to do write nothing: an element moved next
    to itself, or before the element that already follows it, leaves the
    whole heap as it is. *)
Theorem Move_no_op h l A a B :
  ring h l (A ++ a :: B) →
  MoveAfter l (Elem a) (Elem a) h = Ok tt h ∧
  MoveBefore l (Elem a) (Elem a) h = Ok tt h ∧
  (∀ b B', B = b :: B' → MoveBefore l (Elem a) (Elem b) h = Ok tt h).
Proof.
  intros Hr. destruct (ring_member _ _ _ _ _ Hr) as (m & Hm & Hl & _). split_and!.
  - unfold MoveAfter. rewrite (bind_load _ _ _ _ Hm), decide_True by done.
    rewrite (bind_load _ _ _ _ Hm), decide_True by done. by rewrite decide_True.
  - unfold MoveBefore. rewrite (bind_load _ _ _ _ Hm), decide_True by done.
    rewrite (bind_load _ _ _ _ Hm), decide_True by done. by rewrite decide_True.
  - intros b B' ->.
    replace (A ++ a :: b :: B') with ((A ++ [a]) ++ b :: B') in Hr by (by rewrite <- app_assoc).
    destruct (ring_member _ _ _ _ _ Hr) as (mb & Hmb & Hlb & Hpb & _).
    rewrite last_snoc in Hpb. simpl in Hpb.
    assert (a ≠ b) as Hne.
    { intros ->. pose proof (ring_NoDup _ _ _ Hr) as Hnd.
      rewrite <- app_assoc in Hnd. simpl in Hnd.
      apply NoDup_app in Hnd as (_ & _ & Hnd). apply NoDup_cons in Hnd as [Hin _].
      set_solver. }
    unfold MoveBefore. rewrite (bind_load _ _ _ _ Hm), decide_True by done.
    rewrite (bind_load _ _ _ _ Hmb), decide_True by done.
    rewrite decide_False by congruence.
    rewrite (bind_load _ _ _ _ Hmb), Hpb. unfold moveAfter. by rewrite decide_True.
Qed.

(** ** Deciding well-formedness of a concrete heap *)

#[global] Instance linked_dec h p q : Decision (linked h p q).
Proof. unfold linked. apply _. Defined.

#[global] Instance path_dec h ps : Decision (path h ps).
Proof.
  induction ps as [|p ps IH]; [left; exact I|].
  destruct ps as [|q ps]; [left; exact I|].
  simpl. apply and_dec; [apply _|exact IH].
Defined.

#[global] Instance shape_dec h l xs : Decision (shape h l xs).
Proof. unfold shape. apply _. Defined.

#[global] Instance ring_dec h l xs : Decision (ring h l xs).
Proof. unfold ring. apply _. Defined.

End ListOf.

Arguments Ok {T A} a h.
Arguments Panic {T A}.
Arguments Invalid {T A}.

(** ** Concrete runs, with [int] values *)

Ltac by_computation := apply (bool_decide_unpack _); vm_compute; exact I.

(** A run through every entry point, on two lists and a client-made element. *)
Lemma ring_invariant_of_legal_runs_witness :
  ∃ h, run 0 [OpNew; OpZero; OpPushBack 0%nat 1; OpPushBack 0%nat 2;
              OpPushFront 0%nat 3; OpInsertAfter 0%nat 4 (Elem 0);
              OpInsertBefore 0%nat 5 (Elem 1); OpMoveToFront 0%nat (Elem 1);
              OpMoveToBack 0%nat (Elem 2); OpMoveBefore 0%nat (Elem 3) (Elem 0);
              OpMoveAfter 0%nat (Elem 4) (Elem 1); OpRemove 0%nat (Elem 2);
              OpPushBackList 1%nat 0%nat; OpPushFrontList 0%nat 1%nat;
              OpPushBackList 0%nat 0%nat; OpInit 1%nat;
              OpInsertAfter 1%nat 9 (Elem 0); OpElement 8;
              OpRemove 0%nat (Elem 21); OpMoveToFront 0%nat (Elem 21)]
         empty_heap = Ok tt h ∧
       ∀ l, (l < length (lists h))%nat → zero_value 0 h l ∨ ring_invariant h l.
Proof. apply ring_invariant_of_legal_runs. vm_compute. reflexivity. Defined.

(** C1 as stated fails: [Init] on a populated list leaves the back-reference
    of its former elements in place, and [Remove] of such an element then
    writes into the fresh ring; the sentinel ends with [prev] pointing to
    itself and [next] pointing to the second element. *)
Lemma ring_invariant_counterexample :
  ∃ h, run 0 [OpNew; OpPushBack 0%nat 1; OpPushBack 0%nat 2; OpInit 0%nat;
              OpRemove 0%nat (Elem 0)] empty_heap = Ok tt h ∧
       ¬ ring_invariant h 0.
Proof.
  eexists. split; [vm_compute; reflexivity|].
  intros H. destruct (H (Root 0) (reach_root _ _)) as (el & Hel & Hn & _).
  vm_compute in Hel. injection Hel as <-. vm_compute in Hn. discriminate.
Qed.

(** [Init] on a populated list, followed by calls on fresh handles only. *)
Lemma size_invariant_of_legal_runs_witness :
  ∃ h, run 0 [OpNew; OpPushBack 0%nat 1; OpPushBack 0%nat 2; OpInit 0%nat;
              OpPushFront 0%nat 3; OpRemove 0%nat (Elem 2);
              OpPushBack 0%nat 4] empty_heap = Ok tt h ∧
       ∀ l, (l < length (lists h))%nat → size_invariant h l.
Proof. apply size_invariant_of_legal_runs. vm_compute. reflexivity. Defined.

(** C2 as stated fails: after [Init] on a populated list, [Remove] of a
    former element decrements the size of the emptied list, to [-1]. *)
Lemma size_invariant_counterexample :
  ∃ h, run 0 [OpNew; OpPushBack 0%nat 1; OpPushBack 0%nat 2; OpInit 0%nat;
              OpRemove 0%nat (Elem 0)] empty_heap = Ok tt h ∧
       Len 0 h = Ok (-1) h ∧
       ¬ size_invariant h 0.
Proof.
  eexists. split; [vm_compute; reflexivity|]. split; [reflexivity|].
  intros (fuel & ps & _ & HL). unfold Len, get_size in HL. simpl in HL.
  injection HL as HL. lia.
Qed.

(** The values [1, 2, 3]. *)
Lemma pushback_round_trip_witness :
  ∃ l h ps,
    bind (New 0) (λ l, bind (pushBackAll l [1; 2; 3]) (λ _, ret l)) empty_heap = Ok l h ∧
    (∀ fuel, (3 ≤ fuel)%nat → forward fuel l h = Ok (Some ps) h) ∧
    valueOf h <$> ps = [Some 1; Some 2; Some 3] ∧
    (∀ fuel, (3 ≤ fuel)%nat → backward fuel l h = Ok (Some (reverse ps)) h) ∧
    valueOf h <$> reverse ps = [Some 3; Some 2; Some 1].
Proof. apply (pushback_round_trip 0 empty_heap [1; 2; 3]). reflexivity. Defined.

(** [L = [1,2,3]]: [L.PushBackList(L)] gives [[1,2,3,1,2,3]]. *)
Lemma PushBackList_self_append_witness :
  ∃ h' news,
    PushBackList 0 0 (heap_after 0 [OpNew; OpPushBack 0%nat 1; OpPushBack 0%nat 2;
                                    OpPushBack 0%nat 3]) = Ok tt h' ∧
    ring h' 0 ([0; 1; 2]%nat ++ news) ∧
    values h' ([0; 1; 2]%nat ++ news) =
      [Some 1; Some 2; Some 3; Some 1; Some 2; Some 3].
Proof.
  destruct (PushBackList_self_append 0
              (heap_after 0 [OpNew; OpPushBack 0%nat 1; OpPushBack 0%nat 2;
                             OpPushBack 0%nat 3]) 0 [0; 1; 2]%nat)
    as (h' & news & HP & Hr & _ & Hv1 & Hv2 & _).
  - left. by_computation.
  - reflexivity.
  - exists h', news. split; [exact HP|]. split; [exact Hr|].
    unfold values in *. rewrite fmap_app, Hv1, Hv2. reflexivity.
Defined.

(** [L = [1,2,3]] and an empty [M]: [M.PushFrontList(L)] gives [[1,2,3]]. *)
Lemma PushFrontList_keeps_order_witness :
  ∃ h' news,
    PushFrontList 1 0 (heap_after 0 [OpNew; OpPushBack 0%nat 1; OpPushBack 0%nat 2;
                                     OpPushBack 0%nat 3; OpNew]) = Ok tt h' ∧
    ring h' 1 news ∧
    values h' news = [Some 1; Some 2; Some 3].
Proof.
  destruct (PushFrontList_keeps_order 0
              (heap_after 0 [OpNew; OpPushBack 0%nat 1; OpPushBack 0%nat 2;
                             OpPushBack 0%nat 3; OpNew]) 1 0 [] [0; 1; 2]%nat)
    as (h' & news & HP & Hr & Hv & _).
  - left. by_computation.
  - left. by_computation.
  - reflexivity.
  - exists h', news. rewrite app_nil_r in Hr. split; [exact HP|]. split; [exact Hr|].
    rewrite Hv. reflexivity.
Defined.

(** Lists [A] and [B]: an element of [B] as mark of an insertion in [A]. *)
Lemma insert_guard_witness :
  InsertAfter 0 9 (Elem 0) (heap_after 0 [OpNew; OpNew; OpPushBack 1%nat 7]) =
    Ok Nil (heap_after 0 [OpNew; OpNew; OpPushBack 1%nat 7]) ∧
  InsertBefore 0 9 (Elem 0) (heap_after 0 [OpNew; OpNew; OpPushBack 1%nat 7]) =
    Ok Nil (heap_after 0 [OpNew; OpNew; OpPushBack 1%nat 7]).
Proof.
  apply (insert_guard (heap_after 0 [OpNew; OpNew; OpPushBack 1%nat 7]) 0 9 (Elem 0)
           (mkElement (Root 1) (Root 1) (Some 1%nat) 7)).
  - reflexivity.
  - discriminate.
Defined.

(** An element kept across [Init], the single element of a list, and an
    element of another list. *)
Lemma Remove_semantics_witness :
  (∃ h', Remove 0 (Elem 0)
           (heap_after 0 [OpNew; OpPushBack 0%nat 1; OpPushBack 0%nat 2; OpInit 0%nat]) =
         Ok 1 h' ∧
         Len 0 h' = Ok (-1) h' ∧ Next (Elem 0) h' = Ok Nil h') ∧
  (∃ h' v, Remove 0 (Elem 0) (heap_after 0 [OpNew; OpPushBack 0%nat 1]) = Ok v h' ∧
           v = 1 ∧ Len 0 h' = Ok 0 h' ∧
           Next (Elem 0) h' = Ok Nil h' ∧ Prev (Elem 0) h' = Ok Nil h') ∧
  Remove 0 (Elem 0) (heap_after 0 [OpNew; OpNew; OpPushBack 1%nat 7]) =
    Ok 7 (heap_after 0 [OpNew; OpNew; OpPushBack 1%nat 7]).
Proof.
  destruct (Remove_semantics (T:=Z) 0) as (H0 & H1 & H2). split_and!.
  - destruct (H0 (heap_after 0 [OpNew; OpPushBack 0%nat 1; OpPushBack 0%nat 2; OpInit 0%nat])
                0%nat (Elem 0) (mkElement (Root 0) (Elem 1) (Some 0%nat) 1) 0)
      as (h' & HR & _ & _ & _ & Hsz & HN & _).
    + reflexivity.
    + reflexivity.
    + eexists; reflexivity.
    + eexists; reflexivity.
    + discriminate.
    + discriminate.
    + reflexivity.
    + split; reflexivity.
    + exists h'. split; [exact HR|]. split; [|exact HN].
      unfold Len, get_size, sizeOf in *. destruct (lists h' !! 0%nat); [|discriminate].
      simpl in Hsz. by injection Hsz as ->.
  - destruct (H1 (heap_after 0 [OpNew; OpPushBack 0%nat 1]) 0%nat [0%nat] 0%nat 0%nat)
      as (h' & v & HR & Hv & _ & _ & HL & HN & HP).
    + by_computation.
    + reflexivity.
    + exists h', v. split; [exact HR|]. split; [by injection Hv|]. by split.
  - apply (H2 (heap_after 0 [OpNew; OpNew; OpPushBack 1%nat 7]) 0%nat (Elem 0)
             (mkElement (Root 1) (Root 1) (Some 1%nat) 7)).
    + reflexivity.
    + discriminate.
Defined.

(** A zero-value list next to a list with one element. *)
Lemma lazy_initialization_witness :
  PushBack 0 5 (heap_after 0 [OpZero]) =
    bind (Init 0) (λ _, PushBack 0 5) (heap_after 0 [OpZero]) ∧
  InsertAfter 0 9 (Elem 0) (heap_after 0 [OpZero; OpNew; OpPushBack 1%nat 7]) =
    Ok Nil (heap_after 0 [OpZero; OpNew; OpPushBack 1%nat 7]).
Proof.
  destruct (lazy_initialization (T:=Z) 0) as (H1 & _ & H2). split.
  - apply (H1 (heap_after 0 [OpZero]) 0%nat). reflexivity.
  - apply (H2 [OpZero; OpNew; OpPushBack 1%nat 7] _ 0%nat 9 (Elem 0)).
    + reflexivity.
    + reflexivity.
    + left. reflexivity.
    + reflexivity.
Defined.

(** C8 as stated fails for the two insertions: on a zero-value list
    [InsertAfter] returns nil and leaves the sentinel links nil, while the
    [Init] sequence followed by the same call makes them point to the
    sentinel. *)
Lemma lazy_initialization_counterexample :
  zero_value 0 (heap_after 0 [OpZero; OpNew; OpPushBack 1%nat 7]) 0 ∧
  InsertAfter 0 9 (Elem 0) (heap_after 0 [OpZero; OpNew; OpPushBack 1%nat 7]) ≠
    bind (Init 0) (λ _, InsertAfter 0 9 (Elem 0))
      (heap_after 0 [OpZero; OpNew; OpPushBack 1%nat 7]) ∧
  InsertBefore 0 9 (Elem 0) (heap_after 0 [OpZero; OpNew; OpPushBack 1%nat 7]) ≠
    bind (Init 0) (λ _, InsertBefore 0 9 (Elem 0))
      (heap_after 0 [OpZero; OpNew; OpPushBack 1%nat 7]).
Proof.
  split; [reflexivity|]. split; vm_compute; discriminate.
Qed.



(** [e := L.PushBack(1); L.Remove(e)], then [Remove(e)] again on [L] and on
    another list. *)
Lemma Remove_idempotent_witness :
  Remove 0 (Elem 0)
    (heap_after 0 [OpNew; OpNew; OpPushBack 0%nat 1; OpRemove 0%nat (Elem 0)]) =
  Ok 1 (heap_after 0 [OpNew; OpNew; OpPushBack 0%nat 1; OpRemove 0%nat (Elem 0)]) ∧
  Remove 1 (Elem 0)
    (heap_after 0 [OpNew; OpNew; OpPushBack 0%nat 1; OpRemove 0%nat (Elem 0)]) =
  Ok 1 (heap_after 0 [OpNew; OpNew; OpPushBack 0%nat 1; OpRemove 0%nat (Elem 0)]).
Proof.
  destruct (Remove_idempotent
              (heap_after 0 [OpNew; OpNew; OpPushBack 0%nat 1]) 0 (Elem 0)
              (mkElement (Root 0) (Root 0) (Some 0%nat) 1) 1
              (heap_after 0 [OpNew; OpNew; OpPushBack 0%nat 1; OpRemove 0%nat (Elem 0)]))
    as [_ H].
  - reflexivity.
  - left. reflexivity.
  - reflexivity.
  - split; apply H.
Defined.

(** ** Concrete insertions, moves and walks *)

(** [L = [1,2,3]]: a [9] inserted after the second element. *)
Lemma InsertAfter_places_witness :
  ∃ h', InsertAfter 0 9 (Elem 1)
          (heap_after 0 [OpNew; OpPushBack 0%nat 1; OpPushBack 0%nat 2;
                         OpPushBack 0%nat 3]) = Ok (Elem 3) h' ∧
        ring h' 0 [0; 1; 3; 2]%nat ∧
        valueOf h' (Elem 3) = Some 9.
Proof.
  destruct (InsertAfter_places 0
              (heap_after 0 [OpNew; OpPushBack 0%nat 1; OpPushBack 0%nat 2;
                             OpPushBack 0%nat 3]) 0 [0%nat] 1%nat [2%nat] 9)
      as (h' & HI & Hr & Hv & _).
  - by_computation.
  - reflexivity.
  - exists h'. split; [exact HI|]. split; [exact Hr|exact Hv].
Defined.

(** [L = [1,2,3]]: a [9] inserted before the second element. *)
Lemma InsertBefore_places_witness :
  ∃ h', InsertBefore 0 9 (Elem 1)
          (heap_after 0 [OpNew; OpPushBack 0%nat 1; OpPushBack 0%nat 2;
                         OpPushBack 0%nat 3]) = Ok (Elem 3) h' ∧
        ring h' 0 [0; 3; 1; 2]%nat ∧
        valueOf h' (Elem 3) = Some 9.
Proof.
  destruct (InsertBefore_places 0
              (heap_after 0 [OpNew; OpPushBack 0%nat 1; OpPushBack 0%nat 2;
                             OpPushBack 0%nat 3]) 0 [0%nat] 1%nat [2%nat] 9)
      as (h' & HI & Hr & Hv & _).
  - by_computation.
  - reflexivity.
  - exists h'. split; [exact HI|]. split; [exact Hr|exact Hv].
Defined.

(** [PushFront] on a zero-value list. *)
Lemma PushFront_prepends_witness :
  ∃ h', PushFront 0 7 (heap_after 0 [OpZero]) = Ok (Elem 0) h' ∧
        ring h' 0 [0%nat] ∧
        Front 0 h' = Ok (Elem 0) h' ∧
        Len 0 h' = Ok 1 h'.
Proof.
  destruct (PushFront_prepends 0 (heap_after 0 [OpZero]) 0 [] 7)
      as (h' & HP & Hr & _ & HF & HL & _).
  - right. split; reflexivity.
  - reflexivity.
  - exists h'. split; [exact HP|]. split; [exact Hr|]. split; [exact HF|exact HL].
Defined.

(** [L = [1,2,3]]: [PushBack(4)]. *)
Lemma PushBack_appends_witness :
  ∃ h', PushBack 0 4
          (heap_after 0 [OpNew; OpPushBack 0%nat 1; OpPushBack 0%nat 2;
                         OpPushBack 0%nat 3]) = Ok (Elem 3) h' ∧
        ring h' 0 [0; 1; 2; 3]%nat ∧
        Back 0 h' = Ok (Elem 3) h' ∧
        Len 0 h' = Ok 4 h'.
Proof.
  destruct (PushBack_appends 0
              (heap_after 0 [OpNew; OpPushBack 0%nat 1; OpPushBack 0%nat 2;
                             OpPushBack 0%nat 3]) 0 [0; 1; 2]%nat 4)
      as (h' & HP & Hr & _ & HB & _ & HL & _).
  - left. by_computation.
  - reflexivity.
  - exists h'. split; [exact HP|]. split; [exact Hr|]. split; [exact HB|exact HL].
Defined.

(** [L = [1,2,3]]: the last element moved to the front. *)
Lemma MoveToFront_order_witness :
  ∃ h', MoveToFront 0 (Elem 2)
          (heap_after 0 [OpNew; OpPushBack 0%nat 1; OpPushBack 0%nat 2;
                         OpPushBack 0%nat 3]) = Ok tt h' ∧
        ring h' 0 [2; 0; 1]%nat.
Proof.
  destruct (MoveToFront_order 0
              (heap_after 0 [OpNew; OpPushBack 0%nat 1; OpPushBack 0%nat 2;
                             OpPushBack 0%nat 3]) 0 [0; 1]%nat 2%nat []) as (h' & HM & Hr & _).
  - by_computation.
  - exists h'. split; [exact HM|exact Hr].
Defined.

(** [L = [1,2,3]]: the first element moved to the back. *)
Lemma MoveToBack_order_witness :
  ∃ h', MoveToBack 0 (Elem 0)
          (heap_after 0 [OpNew; OpPushBack 0%nat 1; OpPushBack 0%nat 2;
                         OpPushBack 0%nat 3]) = Ok tt h' ∧
        ring h' 0 [1; 2; 0]%nat.
Proof.
  destruct (MoveToBack_order 0
              (heap_after 0 [OpNew; OpPushBack 0%nat 1; OpPushBack 0%nat 2;
                             OpPushBack 0%nat 3]) 0 [] 0%nat [1; 2]%nat) as (h' & HM & Hr & _).
  - by_computation.
  - exists h'. split; [exact HM|exact Hr].
Defined.

(** [L = [1,2,3]]: the first element moved after the last, and the last
    moved after the first. *)
Lemma MoveAfter_order_witness :
  (∃ h', MoveAfter 0 (Elem 0) (Elem 2)
           (heap_after 0 [OpNew; OpPushBack 0%nat 1; OpPushBack 0%nat 2;
                          OpPushBack 0%nat 3]) = Ok tt h' ∧
         ring h' 0 [1; 2; 0]%nat) ∧
  (∃ h', MoveAfter 0 (Elem 2) (Elem 0)
           (heap_after 0 [OpNew; OpPushBack 0%nat 1; OpPushBack 0%nat 2;
                          OpPushBack 0%nat 3]) = Ok tt h' ∧
         ring h' 0 [0; 2; 1]%nat).
Proof.
  destruct (MoveAfter_order (T:=Z) 0) as [H1 H2]. split.
  - destruct (H1 (heap_after 0 [OpNew; OpPushBack 0%nat 1; OpPushBack 0%nat 2;
                                OpPushBack 0%nat 3]) 0%nat [] 0%nat [1%nat] 2%nat [])
      as (h' & HM & Hr & _).
    + by_computation.
    + exists h'. split; [exact HM|exact Hr].
  - destruct (H2 (heap_after 0 [OpNew; OpPushBack 0%nat 1; OpPushBack 0%nat 2;
                                OpPushBack 0%nat 3]) 0%nat [] 0%nat [1%nat] 2%nat [])
      as (h' & HM & Hr & _).
    + by_computation.
    + exists h'. split; [exact HM|exact Hr].
Defined.

(** [L = [1,2,3]]: the first element moved before the last, and the last
    moved before the first. *)
Lemma MoveBefore_order_witness :
  (∃ h', MoveBefore 0 (Elem 0) (Elem 2)
           (heap_after 0 [OpNew; OpPushBack 0%nat 1; OpPushBack 0%nat 2;
                          OpPushBack 0%nat 3]) = Ok tt h' ∧
         ring h' 0 [1; 0; 2]%nat) ∧
  (∃ h', MoveBefore 0 (Elem 2) (Elem 0)
           (heap_after 0 [OpNew; OpPushBack 0%nat 1; OpPushBack 0%nat 2;
                          OpPushBack 0%nat 3]) = Ok tt h' ∧
         ring h' 0 [2; 0; 1]%nat).
Proof.
  destruct (MoveBefore_order (T:=Z) 0) as [H1 H2]. split.
  - destruct (H1 (heap_after 0 [OpNew; OpPushBack 0%nat 1; OpPushBack 0%nat 2;
                                OpPushBack 0%nat 3]) 0%nat [] 0%nat [1%nat] 2%nat [])
      as (h' & HM & Hr & _).
    + by_computation.
    + exists h'. split; [exact HM|exact Hr].
  - destruct (H2 (heap_after 0 [OpNew; OpPushBack 0%nat 1; OpPushBack 0%nat 2;
                                OpPushBack 0%nat 3]) 0%nat [] 0%nat [1%nat] 2%nat [])
      as (h' & HM & Hr & _).
    + by_computation.
    + exists h'. split; [exact HM|exact Hr].
Defined.

(** A push, a removal, an [Init], and a removal through a stale handle. *)
Lemma values_never_change_witness :
  steady (heap_after 0 [OpNew; OpPushBack 0%nat 1])
         (heap_after 0 [OpNew; OpPushBack 0%nat 1; OpPushBack 0%nat 2;
                        OpRemove 0%nat (Elem 0); OpInit 0%nat;
                        OpRemove 0%nat (Elem 1)]).
Proof.
  apply (values_never_change 0 [OpPushBack 0%nat 2; OpRemove 0%nat (Elem 0);
                                OpInit 0%nat; OpRemove 0%nat (Elem 1)]).
  vm_compute. reflexivity.
Defined.

(** [L = [1,2,3]]: after [Init] the list is empty and its second element
    still names it. *)
Lemma Init_resets_witness :
  ∃ h', Init 0 (heap_after 0 [OpNew; OpPushBack 0%nat 1; OpPushBack 0%nat 2;
                              OpPushBack 0%nat 3]) = Ok 0%nat h' ∧
        Len 0 h' = Ok 0 h' ∧
        listOf h' (Elem 1) = Some (Some 0%nat) ∧
        usable h' (Elem 1) = false.
Proof.
  destruct (Init_resets 0
              (heap_after 0 [OpNew; OpPushBack 0%nat 1; OpPushBack 0%nat 2;
                             OpPushBack 0%nat 3]) 0 [0; 1; 2]%nat)
      as (h' & HI & _ & HL & _ & _ & _ & _ & Hs).
  - left. by_computation.
  - destruct (Hs 1%nat) as [Hl Hu]; [by_computation|].
    exists h'. split; [exact HI|]. split; [exact HL|]. split; [exact Hl|exact Hu].
Defined.

(** [L = [1,2,3]]: the neighbours of the second element. *)
Lemma Next_Prev_neighbours_witness :
  Next (Elem 1) (heap_after 0 [OpNew; OpPushBack 0%nat 1; OpPushBack 0%nat 2;
                               OpPushBack 0%nat 3]) =
    Ok (Elem 2) (heap_after 0 [OpNew; OpPushBack 0%nat 1; OpPushBack 0%nat 2;
                               OpPushBack 0%nat 3]) ∧
  Prev (Elem 1) (heap_after 0 [OpNew; OpPushBack 0%nat 1; OpPushBack 0%nat 2;
                               OpPushBack 0%nat 3]) =
    Ok (Elem 0) (heap_after 0 [OpNew; OpPushBack 0%nat 1; OpPushBack 0%nat 2;
                               OpPushBack 0%nat 3]).
Proof.
  apply (Next_Prev_neighbours
           (heap_after 0 [OpNew; OpPushBack 0%nat 1; OpPushBack 0%nat 2;
                          OpPushBack 0%nat 3]) 0 [0%nat] 1%nat [2%nat]).
  by_computation.
Defined.

(** [L = [1,2,3]]: [Prev] of the [Next] of the second element. *)
Lemma Next_Prev_inverse_witness :
  Prev (Elem 2) (heap_after 0 [OpNew; OpPushBack 0%nat 1; OpPushBack 0%nat 2;
                               OpPushBack 0%nat 3]) =
    Ok (Elem 1) (heap_after 0 [OpNew; OpPushBack 0%nat 1; OpPushBack 0%nat 2;
                               OpPushBack 0%nat 3]).
Proof.
  destruct (Next_Prev_inverse
              (heap_after 0 [OpNew; OpPushBack 0%nat 1; OpPushBack 0%nat 2;
                             OpPushBack 0%nat 3]) 0 [0; 1; 2]%nat 1%nat (Elem 2)) as [H _].
  - by_computation.
  - by_computation.
  - discriminate.
  - apply H. reflexivity.
Defined.

(** Pushes, insertions, moves and a removal on two lists. *)
Lemma traversals_of_legal_runs_witness :
  ∃ h, run 0 [OpNew; OpZero; OpPushBack 0%nat 1; OpPushBack 0%nat 2;
              OpPushFront 1%nat 3; OpInsertAfter 0%nat 4 (Elem 0);
              OpMoveToBack 0%nat (Elem 0); OpPushBackList 1%nat 0%nat;
              OpMoveBefore 1%nat (Elem 6) (Elem 2); OpRemove 0%nat (Elem 1)]
         empty_heap = Ok tt h ∧
       ∀ l, (l < length (lists h))%nat →
         ∃ xs, NoDup xs ∧
               forward (length (elems h)) l h = Ok (Some (Elem <$> xs)) h ∧
               backward (length (elems h)) l h = Ok (Some (Elem <$> reverse xs)) h ∧
               Len l h = Ok (Z.of_nat (length xs)) h ∧
               ∀ a, a ∈ xs → listOf h (Elem a) = Some (Some l).
Proof. apply traversals_of_legal_runs. vm_compute. reflexivity. Defined.

(** [L = [1,2,3]] and [M = [4]]: [M.PushBackList(L)] gives [[4,1,2,3]]
    and leaves [L] as it was. *)
Lemma PushBackList_copies_witness :
  ∃ h' news,
    PushBackList 1 0
      (heap_after 0 [OpNew; OpPushBack 0%nat 1; OpPushBack 0%nat 2;
                     OpPushBack 0%nat 3; OpNew; OpPushBack 1%nat 4]) = Ok tt h' ∧
    ring h' 1 (3%nat :: news) ∧
    values h' (3%nat :: news) = [Some 4; Some 1; Some 2; Some 3] ∧
    repr 0 h' 0 [0; 1; 2]%nat.
Proof.
  destruct (PushBackList_copies 0
              (heap_after 0 [OpNew; OpPushBack 0%nat 1; OpPushBack 0%nat 2;
                             OpPushBack 0%nat 3; OpNew; OpPushBack 1%nat 4]) 1 0 [3%nat] [0; 1; 2]%nat)
    as (h' & news & HP & Hr & _ & _ & Hv1 & Hv2 & _ & Ho).
  - left. by_computation.
  - left. by_computation.
  - reflexivity.
  - exists h', news. split; [exact HP|]. split; [exact Hr|]. split.
    + change (values h' (3%nat :: news)) with (values h' [3%nat] ++ values h' news).
      rewrite Hv1, Hv2. reflexivity.
    + apply Ho. discriminate.
Defined.

(** [L = [1,2,3]]: a [9] inserted next to the second element and removed
    again. *)
Lemma Insert_Remove_round_trip_witness :
  (∃ h1 e h2, InsertAfter 0 9 (Elem 1)
                (heap_after 0 [OpNew; OpPushBack 0%nat 1; OpPushBack 0%nat 2;
                               OpPushBack 0%nat 3]) = Ok e h1 ∧
              Remove 0 e h1 = Ok 9 h2 ∧
              ring h2 0 [0; 1; 2]%nat) ∧
  (∃ h1 e h2, InsertBefore 0 9 (Elem 1)
                (heap_after 0 [OpNew; OpPushBack 0%nat 1; OpPushBack 0%nat 2;
                               OpPushBack 0%nat 3]) = Ok e h1 ∧
              Remove 0 e h1 = Ok 9 h2 ∧
              ring h2 0 [0; 1; 2]%nat).
Proof.
  destruct (Insert_Remove_round_trip 0
              (heap_after 0 [OpNew; OpPushBack 0%nat 1; OpPushBack 0%nat 2;
                             OpPushBack 0%nat 3]) 0 [0%nat] 1%nat [2%nat] 9) as [H1 H2].
  - by_computation.
  - reflexivity.
  - split.
    + destruct H1 as (h1 & e & h2 & HI & HR & Hr & _).
      exists h1, e, h2. split; [exact HI|]. split; [exact HR|exact Hr].
    + destruct H2 as (h1 & e & h2 & HI & HR & Hr & _).
      exists h1, e, h2. split; [exact HI|]. split; [exact HR|exact Hr].
Defined.

(** [L = [1,2,3]]: the second element moved after itself, before itself
    and before the third. *)
Lemma Move_no_op_witness :
  MoveAfter 0 (Elem 1) (Elem 1)
    (heap_after 0 [OpNew; OpPushBack 0%nat 1; OpPushBack 0%nat 2;
                   OpPushBack 0%nat 3]) =
    Ok tt (heap_after 0 [OpNew; OpPushBack 0%nat 1; OpPushBack 0%nat 2;
                         OpPushBack 0%nat 3]) ∧
  MoveBefore 0 (Elem 1) (Elem 1)
    (heap_after 0 [OpNew; OpPushBack 0%nat 1; OpPushBack 0%nat 2;
                   OpPushBack 0%nat 3]) =
    Ok tt (heap_after 0 [OpNew; OpPushBack 0%nat 1; OpPushBack 0%nat 2;
                         OpPushBack 0%nat 3]) ∧
  MoveBefore 0 (Elem 1) (Elem 2)
    (heap_after 0 [OpNew; OpPushBack 0%nat 1; OpPushBack 0%nat 2;
                   OpPushBack 0%nat 3]) =
    Ok tt (heap_after 0 [OpNew; OpPushBack 0%nat 1; OpPushBack 0%nat 2;
                         OpPushBack 0%nat 3]).
Proof.
  destruct (Move_no_op
              (heap_after 0 [OpNew; OpPushBack 0%nat 1; OpPushBack 0%nat 2;
                             OpPushBack 0%nat 3]) 0 [0%nat] 1%nat [2%nat]) as (H1 & H2 & H3).
  - by_computation.
  - split; [exact H1|]. split; [exact H2|]. apply (H3 2%nat []). reflexivity.
Defined.
